(** * apiamadeus: a shallow embedding of the flight-search aggregator

    The server (one Express application file plus the Amadeus client
    set-up) reshapes the answers of the Amadeus flight-search API.  This
    development embeds its helper functions ([formatString],
    [formatDuration], [sameOutbound], [generateCalendarDatepairs]), the
    offer-processing callback of [getFlightOffers], the settlement
    bookkeeping of [pricesForDatepairs] and the request handlers, and
    states what they do.

    A JavaScript string is modelled as a Rocq string, the sequence of the
    bytes of its UTF-8 form: an ASCII character is one byte below 128,
    and searching or splitting at ASCII characters is the same on bytes
    as on code units.  The case mappings are written out on ASCII; on a
    string with a character outside ASCII they are the engine's Unicode
    mappings, taken as operations of the platform.  Arrays are lists,
    [undefined] is [None], a plain object used as a dictionary is a
    [gmap] on its own-property names, an exception is the [Throw] branch
    of [JsResult], and a settled promise is a [Promise]. *)

From Stdlib Require Import ZArith List Ascii String Bool Lia Permutation DecimalString.
From stdpp Require Import base option list strings gmap.

Local Open Scope string_scope.
Local Open Scope list_scope.

(* ================================================================== *)
(** * Part I: definitions                                              *)
(* ================================================================== *)

(** ** JavaScript values, exceptions and promises *)

Inductive JsError : Type :=
| TypeError
| ReferenceError
| RangeError
| SyntaxError
| ResponseError (code : string).

Inductive JsResult (A : Type) : Type :=
| Ok (a : A)
| Throw (e : JsError).

Arguments Ok {A} a.
Arguments Throw {A} e.

Definition bindJs {A B : Type} (r : JsResult A) (k : A -> JsResult B) : JsResult B :=
  match r with
  | Ok a => k a
  | Throw e => Throw e
  end.

Notation "x <- r ;;; k" := (bindJs r (fun x => k))
  (at level 100, r at next level, right associativity).

(** Reading a property of [undefined], or calling a method on it, throws
    a [TypeError]. *)
Definition defined {A : Type} (v : option A) : JsResult A :=
  match v with
  | Some a => Ok a
  | None => Throw TypeError
  end.

(** [`${v}`]: a template literal prints [undefined] by name. *)
Definition tmpl (v : option string) : string :=
  match v with
  | Some s => s
  | None => "undefined"
  end.

(** A settled promise. *)
Inductive Promise (A : Type) : Type :=
| Fulfilled (a : A)
| Rejected (e : JsError).

Arguments Fulfilled {A} a.
Arguments Rejected {A} e.

(** [p.then(f)]: [f] runs on fulfilment; an exception thrown by [f]
    rejects the derived promise. *)
Definition then_ {A B : Type} (p : Promise A) (f : A -> JsResult B) : Promise B :=
  match p with
  | Fulfilled a =>
      match f a with
      | Ok b => Fulfilled b
      | Throw e => Rejected e
      end
  | Rejected e => Rejected e
  end.

(** [p.catch(g)]: [g] runs on rejection, and what it returns fulfils
    the derived promise. *)
Definition catch_ {A : Type} (p : Promise A) (g : JsError -> JsResult A) : Promise A :=
  match p with
  | Fulfilled a => Fulfilled a
  | Rejected e =>
      match g e with
      | Ok a => Fulfilled a
      | Throw e' => Rejected e'
      end
  end.

(** ** String primitives *)

Module JsString.

Definition isLower (c : ascii) : bool :=
  let n := nat_of_ascii c in (97 <=? n)%nat && (n <=? 122)%nat.

Definition isUpper (c : ascii) : bool :=
  let n := nat_of_ascii c in (65 <=? n)%nat && (n <=? 90)%nat.

Definition isDigit (c : ascii) : bool :=
  let n := nat_of_ascii c in (48 <=? n)%nat && (n <=? 57)%nat.

(** A byte below 128 is an ASCII character; a string of such bytes is
    an ASCII string. *)
Definition isAsciiChar (c : ascii) : bool := (nat_of_ascii c <? 128)%nat.

Fixpoint isAscii (s : string) : bool :=
  match s with
  | EmptyString => true
  | String c r => isAsciiChar c && isAscii r
  end.

Definition startsAscii (s : string) : bool :=
  match s with
  | EmptyString => true
  | String c _ => isAsciiChar c
  end.

(** The case mappings of the ASCII characters: the letters a-z and A-Z
    are 32 apart, and no other ASCII character has a case. *)
Definition upperChar (c : ascii) : ascii :=
  if isLower c then ascii_of_nat (nat_of_ascii c - 32) else c.

Definition lowerChar (c : ascii) : ascii :=
  if isUpper c then ascii_of_nat (nat_of_ascii c + 32) else c.

Fixpoint mapChars (f : ascii -> ascii) (s : string) : string :=
  match s with
  | EmptyString => EmptyString
  | String c r => String (f c) (mapChars f r)
  end.

(** [s.charAt(0)]: the empty string when [s] is empty; the first code
    unit is the first byte when that byte is an ASCII character. *)
Definition charAt0 (s : string) : string :=
  match s with
  | EmptyString => EmptyString
  | String c _ => String c EmptyString
  end.

(** [s.slice(1)], likewise. *)
Definition slice1 (s : string) : string :=
  match s with
  | EmptyString => EmptyString
  | String _ r => r
  end.

(** [s.includes(needle)]. *)
Fixpoint includes (needle s : string) : bool :=
  String.prefix needle s ||
  match s with
  | EmptyString => false
  | String _ r => includes needle r
  end.

(** [s.split(sep)] for a non-empty separator string: the pieces between
    the non-overlapping occurrences of [sep], read left to right.
    [skip] counts the characters of a matched separator that are still to
    be passed over. *)
Fixpoint splitFrom (sep : string) (skip : nat) (s : string) : list string :=
  match s with
  | EmptyString => [EmptyString]
  | String c r =>
      match skip with
      | S k => splitFrom sep k r
      | O =>
          if String.prefix sep s
          then EmptyString :: splitFrom sep (String.length sep - 1) r
          else match splitFrom sep 0 r with
               | t :: ts => String c t :: ts
               | [] => [String c EmptyString]
               end
      end
  end.

Fixpoint chars (s : string) : list string :=
  match s with
  | EmptyString => []
  | String c r => String c EmptyString :: chars r
  end.

Definition split (sep s : string) : list string :=
  match sep with
  | EmptyString => chars s
  | _ => splitFrom sep 0 s
  end.

(** [s.split(/[ -]/)]: the regular expression is a class of two
    characters, the space and the hyphen. *)
Definition isSpaceOrHyphen (c : ascii) : bool :=
  Ascii.eqb c " " || Ascii.eqb c "-".

Fixpoint splitOn (p : ascii -> bool) (s : string) : list string :=
  match s with
  | EmptyString => [EmptyString]
  | String c r =>
      if p c then EmptyString :: splitOn p r
      else match splitOn p r with
           | t :: ts => String c t :: ts
           | [] => [String c EmptyString]
           end
  end.

(** [xs.join(sep)]. *)
Fixpoint join (sep : string) (xs : list string) : string :=
  match xs with
  | [] => EmptyString
  | [x] => x
  | x :: rest => x +:+ sep +:+ join sep rest
  end.

(** [s.replace(a, b)] with string arguments: the first occurrence only. *)
Fixpoint dropChars (n : nat) (s : string) : string :=
  match n, s with
  | S k, String _ r => dropChars k r
  | _, _ => s
  end.

Fixpoint replaceFirst (a b s : string) : string :=
  if String.prefix a s then b +:+ dropChars (String.length a) s
  else match s with
       | EmptyString => EmptyString
       | String c r => String c (replaceFirst a b r)
       end.

End JsString.

Import JsString.

(** Duration components are written with decimal digits. *)
Fixpoint allDigits (s : string) : bool :=
  match s with
  | EmptyString => true
  | String c r => isDigit c && allDigits r
  end.

(** [avoids c s]: the character [c] does not occur in [s]. *)
Fixpoint avoids (c : ascii) (s : string) : bool :=
  match s with
  | EmptyString => true
  | String x r => negb (Ascii.eqb x c) && avoids c r
  end.

(** ** What the host and the libraries provide

    Number parsing and printing, [Intl.NumberFormat], the [date-fns]
    patterns used for display, the decoding of the upstream body, the
    Unicode case mappings, the parsing of dates written in another form
    than [YYYY-MM-DD] and the host's time zone are outside the
    repository.  They are taken as operations of the platform. *)

Record RawSegment : Type := {
  seg_id : string;
  seg_carrierCode : string;
  seg_operatingCarrierCode : option string;
  seg_number : string;
  seg_aircraftCode : string;
  seg_departure_iataCode : string;
  seg_departure_at : string;
  seg_arrival_iataCode : string;
  seg_arrival_at : string;
  seg_duration : string
}.

Record RawItinerary : Type := {
  it_duration : string;
  it_segments : list RawSegment
}.

Record FareDetail : Type := {
  fd_segmentId : string;
  fd_cabin : string
}.

Record RawOffer : Type := {
  of_id : string;
  of_price_total : string;
  of_price_currency : string;
  of_validatingAirlineCodes : list string;
  of_itineraries : list RawItinerary;
  of_fareDetailsBySegment : option (list FareDetail)
}.

Record Response : Type := {
  data : list RawOffer;
  dict_carriers : gmap string string;
  dict_aircraft : gmap string string
}.

Class Platform : Type := {
  (** JavaScript numbers, and [parseFloat(text)]. *)
  Num : Type;
  parseFloat : string -> Num;
  (** [formatter.format(total)] for the formatter of a currency code. *)
  currencyFormat : string -> string -> string;
  (** [format(new Date(timestamp), pattern)]; an invalid date throws. *)
  dateFnsFormat : string -> string -> JsResult string;
  (** The text [`${hours} h ${minutes} min`] for the time between an
      arrival and the next departure (floating-point arithmetic on the
      two time values). *)
  stopDurationText : string -> string -> string;
  (** [JSON.parse(res.body)], read as an upstream answer. *)
  JSON_parse : string -> JsResult Response;
  (** [s.toUpperCase()] and [s.toLowerCase()] for a string with a
      character outside ASCII. *)
  unicodeToUpperCase : string -> string;
  unicodeToLowerCase : string -> string;
  (** [word.charAt(0).toUpperCase() + word.slice(1).toLowerCase()] for a
      word that opens with a character outside ASCII (its first code
      unit is not a byte of the word). *)
  unicodeCapitalize : string -> string;
  (** The case mappings change cased letters only: they put no hyphen
      where there was none. *)
  unicodeToLowerCase_hyphen :
    forall s, avoids "-" s = true -> avoids "-" (unicodeToLowerCase s) = true;
  unicodeCapitalize_hyphen :
    forall s, avoids "-" s = true -> avoids "-" (unicodeCapitalize s) = true;
  (** [Date.parse(s)] for a string that is not a date-only form
      [YYYY-MM-DD]: a time value, or [None] for [NaN]. *)
  dateParse : string -> option Z;
  (** [LocalTZA(t, isUTC)] of ECMAScript: the offset of the host's local
      time from UTC in milliseconds, at the UTC time [t] when [isUTC]
      and at the local time [t] otherwise. *)
  LocalTZA : Z -> bool -> Z
}.

(** ** Helper functions of the application *)

(** [s.toUpperCase()] and [s.toLowerCase()]. *)
Definition toUpperCase `{Platform} (s : string) : string :=
  if isAscii s then mapChars upperChar s else unicodeToUpperCase s.

Definition toLowerCase `{Platform} (s : string) : string :=
  if isAscii s then mapChars lowerChar s else unicodeToLowerCase s.

(** [formatString]: upper-case names to first-letter upper-case.  The
    callback of [map] is written out for a word whose first code unit is
    an ASCII character. *)
Definition capitalizeWord `{Platform} (word : string) : string :=
  if startsAscii word
  then toUpperCase (charAt0 word) +:+ toLowerCase (slice1 word)
  else unicodeCapitalize word.

(** The same callback on a word of ASCII characters. *)
Definition capitalizeAscii (word : string) : string :=
  mapChars upperChar (charAt0 word) +:+ mapChars lowerChar (slice1 word).

Definition formatString `{Platform} (str : string) : string :=
  join " " (map capitalizeWord (splitOn isSpaceOrHyphen str)).

(** [formatString(v)] where [v] may be [undefined] (a dictionary miss):
    [undefined.split] throws. *)
Definition formatStringOf `{Platform} (v : option string) : JsResult string :=
  str <- defined v ;;; Ok (formatString str).

(** [formatDuration]: [PTxxHyyM] to [xx h yy min]. *)
Definition formatDuration (str : string) : JsResult string :=
  let hasHours := includes "H" str in
  let hasMinutes := includes "M" str in
  durationHours <-
    (if hasHours
     then pt <- defined (split "PT" str !! 1%nat) ;;; Ok (split "H" pt !! 0%nat)
     else Ok (Some "0")) ;;;
  if hasHours && hasMinutes then
    pt <- defined (split "PT" str !! 1%nat) ;;;
    afterH <- defined (split "H" pt !! 1%nat) ;;;
    let durationMinutes := split "M" afterH !! 0%nat in
    Ok (tmpl durationHours +:+ " h " +:+ tmpl durationMinutes +:+ " min")
  else if hasMinutes then
    pt <- defined (split "PT" str !! 1%nat) ;;;
    let durationMinutes := split "M" pt !! 0%nat in
    Ok (tmpl durationMinutes +:+ " min")
  else
    Ok (tmpl durationHours +:+ " h").

(** The wording of the specification, for comparison with
    [formatString]: split on spaces and hyphens, capitalise the first
    letter of each token, lower-case the rest, rejoin with spaces.  The
    wording is spelled out with means of its own: the letters are looked
    up in the two alphabets, the tokens are gathered in one scan from the
    left, and the library's [concat] puts the spaces between them.  What
    lies outside ASCII is left to the Unicode mappings. *)
Definition smallLetters : string := "abcdefghijklmnopqrstuvwxyz".
Definition capitalLetters : string := "ABCDEFGHIJKLMNOPQRSTUVWXYZ".

Fixpoint translate (from to : string) (c : ascii) : ascii :=
  match from, to with
  | String a from', String b to' =>
      if Ascii.eqb c a then b else translate from' to' c
  | _, _ => c
  end.

Definition capitalOf (c : ascii) : ascii := translate smallLetters capitalLetters c.
Definition smallOf (c : ascii) : ascii := translate capitalLetters smallLetters c.

Fixpoint tokensFrom (current s : string) : list string :=
  match s with
  | EmptyString => [current]
  | String c r =>
      if Ascii.eqb c " " || Ascii.eqb c "-"
      then current :: tokensFrom EmptyString r
      else tokensFrom (current +:+ String c EmptyString) r
  end.

Definition tokens (s : string) : list string := tokensFrom EmptyString s.

Definition lowercased `{Platform} (s : string) : string :=
  if isAscii s then mapChars smallOf s else unicodeToLowerCase s.

Definition titleToken `{Platform} (tok : string) : string :=
  match tok with
  | EmptyString => EmptyString
  | String c rest =>
      if isAsciiChar c then String (capitalOf c) (lowercased rest)
      else unicodeCapitalize tok
  end.

Definition formatTitleCase_spec `{Platform} (s : string) : string :=
  String.concat " " (map titleToken (tokens s)).

(** The same on an ASCII string, in one pass over the characters: a
    space or a hyphen becomes a space, the character that opens a token
    is replaced by its capital, every other one by its small letter. *)
Fixpoint titlePass (opening : bool) (s : string) : string :=
  match s with
  | EmptyString => EmptyString
  | String c r =>
      if Ascii.eqb c " " || Ascii.eqb c "-" then String " " (titlePass true r)
      else String (if opening then capitalOf c else smallOf c) (titlePass false r)
  end.

(** [new Intl.NumberFormat("en-US", {style: "currency", currency})]
    throws a [RangeError] unless the code is three ASCII letters. *)
Definition isLetter (c : ascii) : bool := isLower c || isUpper c.

Definition isWellFormedCurrencyCode (code : string) : bool :=
  match code with
  | String a (String b (String c EmptyString)) => isLetter a && isLetter b && isLetter c
  | _ => false
  end.

Definition newCurrencyFormatter (code : string) : JsResult string :=
  if isWellFormedCurrencyCode code then Ok code else Throw RangeError.

(** ** The processed (display) model *)

Record SegmentData : Type := {
  sd_departureDate : string;
  sd_arrivalDate : string;
  sd_departureTime : string;
  sd_arrivalTime : string;
  sd_duration : string;
  sd_origin : string;
  sd_destination : string;
  carrierCode : string;
  carrierName : string;
  sd_flightNumber : string;
  sd_aircraft : string;
  sd_class : string;
  sd_stopDuration : option string
}.

(** [id_departure] and [id_arrival] hold the airport, time and date
    copied from the first and the last segment. *)
Record ItineraryData : Type := {
  id_duration : string;
  id_stops : string;
  segments : list SegmentData;
  id_departure : option (string * string * string);
  id_arrival : option (string * string * string);
  id_priceFormatted : option string;
  id_offerId : option string
}.

Record OfferData : Type := {
  priceFrom : string;
  validatingAirline : option string;
  outbound : option ItineraryData;
  inbounds : option (list ItineraryData);
  added : bool
}.

(** ** [sameOutbound] *)

Definition flightKey (seg : SegmentData) : string :=
  carrierCode seg +:+ carrierName seg.

Definition arrayIncludes (xs : list string) (x : string) : bool :=
  existsb (String.eqb x) xs.

Definition sameOutbound (it1 it2 : ItineraryData) : bool :=
  if negb (length (segments it1) =? length (segments it2))%nat then false
  else
    let it1Flights := map flightKey (segments it1) in
    let it2Flights := map flightKey (segments it2) in
    forallb (fun flight => arrayIncludes it2Flights flight) it1Flights.

(** ** [getFlightOffers]: the callback that reshapes one upstream answer *)

(** [n + " stop"]: a number printed in decimal. *)
Definition showZ (z : Z) : string := NilZero.string_of_int (Z.to_int z).

(** The identifiers bound where the body of the offer loop runs: the
    module's declarations, the parameters and locals of the enclosing
    functions, and the globals the file uses. *)
Definition offerLoopScope : list string :=
  [ "express"; "format"; "addDays"; "bodyParser"; "path"; "cors"; "dotenv";
    "Bottleneck"; "swaggerJsdoc"; "swaggerUi"; "amadeus"; "PORT"; "app";
    "allowedOrigins"; "AMADEUS_HOST"; "limiterArgs"; "limiter";
    "swaggerDefinition"; "options"; "swaggerSpec";
    "formatString"; "formatDuration"; "sameOutbound";
    "generateCalendarDatepairs"; "getSearchSuggestions"; "getFlightOffers";
    "pricesForDatepairs";
    "originLocationCode"; "destinationLocationCode"; "departureDate";
    "returnDate"; "adults"; "travelClass";
    "res"; "response"; "currencyFormatter"; "offers"; "offer"; "offerData";
    "require"; "module"; "exports"; "__dirname"; "__filename";
    "console"; "process"; "JSON"; "Intl"; "Date"; "Math"; "Promise"; "Error" ].

(** Reading an identifier that no enclosing scope binds throws a
    [ReferenceError]. *)
Definition readIdentifier (scope : list string) (name : string) : JsResult unit :=
  if existsb (String.eqb name) scope then Ok tt else Throw ReferenceError.

Fixpoint mapIndexed {A B : Type} (f : nat -> A -> JsResult B) (i : nat) (xs : list A)
  : JsResult (list B) :=
  match xs with
  | [] => Ok []
  | x :: rest =>
      y <- f i x ;;;
      ys <- mapIndexed f (S i) rest ;;;
      Ok (y :: ys)
  end.

Fixpoint forEachJs {A S : Type} (f : S -> A -> JsResult S) (xs : list A) (st : S)
  : JsResult S :=
  match xs with
  | [] => Ok st
  | x :: rest => st' <- f st x ;;; forEachJs f rest st'
  end.

Section Aggregator.
Context `{Platform}.

Definition stopsLabel (nbSegments : nat) : string :=
  if (nbSegments =? 1)%nat then "Nonstop"
  else showZ (Z.of_nat nbSegments - 1) +:+ " stop"
       +:+ (if (3 <=? nbSegments)%nat then "s" else "").

(** [segment.operating?.carrierCode || segment.carrierCode] *)
Definition segmentCarrier (segment : RawSegment) : string :=
  match seg_operatingCarrierCode segment with
  | Some c => if String.eqb c "" then seg_carrierCode segment else c
  | None => seg_carrierCode segment
  end.

Definition processSegment (response : Response) (offer : RawOffer)
    (itinerary : RawItinerary) (i : nat) (segment : RawSegment) : JsResult SegmentData :=
  let code := segmentCarrier segment in
  departureDate <- dateFnsFormat (seg_departure_at segment) "EEEE, d MMMM" ;;;
  arrivalDate <- dateFnsFormat (seg_arrival_at segment) "EEEE, d MMMM" ;;;
  departureTime <- dateFnsFormat (seg_departure_at segment) "HH:mm" ;;;
  arrivalTime <- dateFnsFormat (seg_arrival_at segment) "HH:mm" ;;;
  duration <- formatDuration (seg_duration segment) ;;;
  name <- formatStringOf (dict_carriers response !! code) ;;;
  aircraft <- formatStringOf (dict_aircraft response !! seg_aircraftCode segment) ;;;
  fares <- defined (of_fareDetailsBySegment offer) ;;;
  fd <- defined (find (fun fd => String.eqb (fd_segmentId fd) (seg_id segment)) fares) ;;;
  Ok {| sd_departureDate := departureDate;
        sd_arrivalDate := arrivalDate;
        sd_departureTime := departureTime;
        sd_arrivalTime := arrivalTime;
        sd_duration := duration;
        sd_origin := seg_departure_iataCode segment;
        sd_destination := seg_arrival_iataCode segment;
        carrierCode := code;
        carrierName := name;
        sd_flightNumber := seg_number segment;
        sd_aircraft := aircraft;
        sd_class := formatString (replaceFirst "_" " " (fd_cabin fd));
        sd_stopDuration :=
          match it_segments itinerary !! S i with
          | Some next =>
              Some (stopDurationText (seg_arrival_at segment) (seg_departure_at next))
          | None => None
          end |}.

Definition processItinerary (response : Response) (offer : RawOffer)
    (itinerary : RawItinerary) : JsResult ItineraryData :=
  let nbSegments := length (it_segments itinerary) in
  duration <- formatDuration (it_duration itinerary) ;;;
  segs <- mapIndexed (processSegment response offer itinerary) 0 (it_segments itinerary) ;;;
  Ok {| id_duration := duration;
        id_stops := stopsLabel nbSegments;
        segments := segs;
        id_departure :=
          match head segs with
          | Some s => Some (sd_origin s, sd_departureTime s, sd_departureDate s)
          | None => None
          end;
        id_arrival :=
          match last segs with
          | Some s => Some (sd_destination s, sd_arrivalTime s, sd_arrivalDate s)
          | None => None
          end;
        id_priceFormatted := None;
        id_offerId := None |}.

(** The inner [offers.forEach]: the inbound is pushed onto every collected
    offer whose outbound passes [sameOutbound]; the flag records whether
    one did. *)
Definition pushInbound (mine : option ItineraryData) (inbound : ItineraryData)
    (acc : list OfferData * bool) (collected : OfferData)
  : JsResult (list OfferData * bool) :=
  it1 <- defined (outbound collected) ;;;
  it2 <- defined mine ;;;
  if sameOutbound it1 it2 then
    existing <- defined (inbounds collected) ;;;
    Ok (acc.1 ++ [ {| priceFrom := priceFrom collected;
                      validatingAirline := validatingAirline collected;
                      outbound := outbound collected;
                      inbounds := Some (existing ++ [inbound]);
                      added := added collected |} ], true)
  else Ok (acc.1 ++ [collected], acc.2).

(** One turn of [offer.itineraries.forEach((itinerary, i) => ...)]. *)
Definition processOfferItinerary (response : Response) (offer : RawOffer)
    (st : OfferData * list OfferData * nat) (itinerary : RawItinerary)
  : JsResult (OfferData * list OfferData * nat) :=
  let '(offerData, offers, i) := st in
  itineraryData <- processItinerary response offer itinerary ;;;
  match i with
  | O =>
      Ok ({| priceFrom := priceFrom offerData;
             validatingAirline := validatingAirline offerData;
             outbound := Some itineraryData;
             inbounds := inbounds offerData;
             added := added offerData |}, offers, S i)
  | S _ =>
      let inbound :=
        {| id_duration := id_duration itineraryData;
           id_stops := id_stops itineraryData;
           segments := segments itineraryData;
           id_departure := id_departure itineraryData;
           id_arrival := id_arrival itineraryData;
           id_priceFormatted := Some (priceFrom offerData);
           id_offerId := Some (of_id offer) |} in
      r <- forEachJs (pushInbound (outbound offerData) inbound) offers ([], false) ;;;
      Ok ({| priceFrom := priceFrom offerData;
             validatingAirline := validatingAirline offerData;
             outbound := outbound offerData;
             inbounds := Some [inbound];
             added := added offerData || r.2 |}, r.1, S i)
  end.

(** One turn of [response.data.forEach((offer) => ...)], in a scope that
    binds the identifiers of [scope]. *)
Definition processOffer (scope : list string) (response : Response) (currency : string)
    (offers : list OfferData) (offer : RawOffer) : JsResult (list OfferData) :=
  let offerData :=
    {| priceFrom := currencyFormat currency (of_price_total offer);
       validatingAirline := of_validatingAirlineCodes offer !! 0%nat;
       outbound := None;
       inbounds := None;
       added := false |} in
  _ <- readIdentifier scope "priceFrom" ;;;
  r <- forEachJs (processOfferItinerary response offer) (of_itineraries offer)
         (offerData, offers, 0%nat) ;;;
  let '(offerData', offers', _) := r in
  Ok (if added offerData' then offers' else offers' ++ [offerData']).

(** The [.then((res) => ...)] callback of [getFlightOffers]. *)
Definition reshapeOffers (scope : list string) (body : string) : JsResult (list OfferData) :=
  response <- JSON_parse body ;;;
  first <- defined (data response !! 0%nat) ;;;
  currency <- newCurrencyFormatter (of_price_currency first) ;;;
  forEachJs (processOffer scope response currency) (data response) [].

(** What the promise returned by [getFlightOffers] is fulfilled with: the
    offers, or the error that the final [.catch] returned. *)
Inductive FlightsValue : Type :=
| OffersValue (offers : list OfferData)
| ErrorValue (e : JsError).

(** [limiter.schedule(job)] settles as the job does. *)
Definition schedule {A : Type} (job : Promise A) : Promise A := job.

Definition getFlightOffersIn (scope : list string) (upstream : Promise string)
  : Promise FlightsValue :=
  catch_
    (then_ (schedule upstream)
       (fun res => offers <- reshapeOffers scope res ;;; Ok (OffersValue offers)))
    (fun err => Ok (ErrorValue err)).

Definition getFlightOffers (upstream : Promise string) : Promise FlightsValue :=
  getFlightOffersIn offerLoopScope upstream.

End Aggregator.

(** ** The HTTP surface *)

Record HttpResponse (B : Type) : Type := {
  status : Z;
  body : B
}.

Arguments status {B} _.
Arguments body {B} _.

(** [res.send(v)] answers with the default status, 200;
    [res.status(500).send(v)] with 500. *)
Definition send {B : Type} (v : B) : HttpResponse B := {| status := 200; body := v |}.
Definition sendStatus {B : Type} (code : Z) (v : B) : HttpResponse B :=
  {| status := code; body := v |}.

(** [p.then((v) => res.send(v)).catch((err) => res.status(500).send(err))] *)
Definition respond {A B : Type} (p : Promise A) (ok : A -> B) (err : JsError -> B)
  : HttpResponse B :=
  match p with
  | Fulfilled v => send (ok v)
  | Rejected e => sendStatus 500 (err e)
  end.

Record LocationEntry : Type := {
  loc_iataCode : string;
  loc_name : option string;
  loc_cityName : option string
}.

Record LocationSuggestion : Type := {
  iataCode : string;
  name : string;
  cityName : string
}.

Inductive SuggestionsBody : Type :=
| SuggestionsValue (s : list LocationSuggestion)
| SuggestionsError (e : JsError).

Definition suggestionOf `{Platform} (entry : LocationEntry) : JsResult LocationSuggestion :=
  n <- formatStringOf (loc_name entry) ;;;
  c <- formatStringOf (loc_cityName entry) ;;;
  Ok {| iataCode := loc_iataCode entry; name := n; cityName := c |}.

(** [getSearchSuggestions]: the executor resolves with the mapped entries
    and rejects with whatever the chain caught. *)
Definition getSearchSuggestions `{Platform} (upstream : Promise (list LocationEntry))
  : Promise (list LocationSuggestion) :=
  match then_ upstream (mapIndexed (fun _ => suggestionOf) 0) with
  | Fulfilled suggestions => Fulfilled suggestions
  | Rejected err => Rejected err
  end.

Definition handleSearchSuggestions `{Platform} (upstream : Promise (list LocationEntry))
  : HttpResponse SuggestionsBody :=
  respond (getSearchSuggestions upstream) SuggestionsValue SuggestionsError.

Definition handleGetFlightOffers `{Platform} (upstream : Promise string)
  : HttpResponse FlightsValue :=
  respond (getFlightOffers upstream) (fun flights => flights) ErrorValue.

(** ** [pricesForDatepairs]: one query per date pair, one shared map *)

Section Scanner.
Context `{Platform}.

Inductive PriceResult : Type :=
| PriceOf (price : Num) (priceFormatted : string)
| EmptyObject.

(** [o[key] = v] on a plain object: every name becomes an own property,
    except [__proto__], whose assignment replaces the prototype and
    leaves the own properties as they were. *)
Definition setProperty {V : Type} (key : string) (v : V) (o : gmap string V)
  : gmap string V :=
  if decide (key = "__proto__") then o else <[key := v]> o.

(** The variables the promise executor closes over, and whether
    [resolve(flights)] has been called.  [resolve] is given the object
    itself, so the promise's value is [flights] as it then stands. *)
Record ScanState : Type := {
  flights : gmap string PriceResult;
  responseCount : nat;
  errorCount : nat;
  resolved : bool
}.

Definition scanStart : ScanState :=
  {| flights := ∅; responseCount := 0; errorCount := 0; resolved := false |}.

(** The right-hand side built by the [.then] callback. *)
Definition priceOfResponse (response : Response) : JsResult PriceResult :=
  first <- defined (data response !! 0%nat) ;;;
  currency <- newCurrencyFormatter (of_price_currency first) ;;;
  Ok (PriceOf (parseFloat (of_price_total first))
              (currencyFormat currency (of_price_total first))).

Definition onThen (datepair : string) (response : Response) (st : ScanState)
  : JsResult ScanState :=
  r <- priceOfResponse response ;;;
  Ok {| flights := setProperty datepair r (flights st);
        responseCount := responseCount st;
        errorCount := errorCount st;
        resolved := resolved st |}.

Definition onCatch (datepair : string) (st : ScanState) : ScanState :=
  {| flights := setProperty datepair EmptyObject (flights st);
     responseCount := responseCount st;
     errorCount := S (errorCount st);
     resolved := resolved st |}.

Definition onFinally (nbDatepairs : nat) (st : ScanState) : ScanState :=
  let count := S (responseCount st) in
  {| flights := flights st;
     responseCount := count;
     errorCount := errorCount st;
     resolved := resolved st || (count =? nbDatepairs)%nat |}.

(** A dispatched query: its date pair and the way the scheduled upstream
    call settles. *)
Definition Query : Type := string * Promise Response.

(** The [.then / .catch / .finally] chain of one query, run when the
    query settles.  The three callbacks of a chain run in this order, and
    the callbacks of different chains only meet in [flights] and the two
    counters, so a chain is taken as one step. *)
Definition settle (nbDatepairs : nat) (st : ScanState) (q : Query) : ScanState :=
  let chain :=
    catch_ (then_ (schedule q.2) (fun response => onThen q.1 response st))
           (fun _ => Ok (onCatch q.1 st)) in
  match chain with
  | Fulfilled st' => onFinally nbDatepairs st'
  | Rejected _ => onFinally nbDatepairs st
  end.

(** [pricesForDatepairs]: [datepairs.forEach] dispatches [queries]; the
    state after the queries of [settled] have settled, in that order. *)
Definition pricesForDatepairs (queries settled : list Query) : ScanState :=
  fold_left (settle (length queries)) settled scanStart.

(** The promise returned to the caller: pending ([None]) until
    [resolve] is called; it is never rejected. *)
Definition scanPromise (st : ScanState) : option (gmap string PriceResult) :=
  if resolved st then Some (flights st) else None.

(** [app.post("/flights-for-datepairs")]: the answer once the promise is
    fulfilled; none while it is pending. *)
Definition handleFlightsForDatepairs (queries settled : list Query)
  : option (HttpResponse (gmap string PriceResult)) :=
  send <$> scanPromise (pricesForDatepairs queries settled).

(** A query whose answer yields a price, and the record it leaves. *)
Definition recordOf (reply : Promise Response) : PriceResult :=
  match reply with
  | Fulfilled response =>
      match priceOfResponse response with
      | Ok r => r
      | Throw _ => EmptyObject
      end
  | Rejected _ => EmptyObject
  end.

Definition succeeds (reply : Promise Response) : bool :=
  match reply with
  | Fulfilled response =>
      match priceOfResponse response with
      | Ok _ => true
      | Throw _ => false
      end
  | Rejected _ => false
  end.

Definition isPopulated (r : PriceResult) : bool :=
  match r with
  | PriceOf _ _ => true
  | EmptyObject => false
  end.

(** The map that a sequence of settled queries leaves, and the number of
    them that the [.catch] callback counted. *)
Definition recordStep (m : gmap string PriceResult) (q : Query)
  : gmap string PriceResult :=
  setProperty q.1 (recordOf q.2) m.

Definition failures (settled : list Query) : nat :=
  length (filter (fun q => succeeds q.2 = false) settled).

End Scanner.

(** ** Calendar arithmetic, as ECMAScript defines it on day numbers *)

Module Calendar.

Local Open Scope Z_scope.

Record CivilDate : Type := {
  year : Z;
  month : Z;
  day : Z
}.

Definition isLeapYear (y : Z) : bool :=
  (y mod 4 =? 0) && (negb (y mod 100 =? 0) || (y mod 400 =? 0)).

Definition monthLength (leap : bool) (m : Z) : Z :=
  if m =? 2 then (if leap then 29 else 28)
  else if (m =? 4) || (m =? 6) || (m =? 9) || (m =? 11) then 30
  else 31.

Definition daysInMonth (y m : Z) : Z := monthLength (isLeapYear y) m.

Definition validDate (d : CivilDate) : bool :=
  (1 <=? month d) && (month d <=? 12) &&
  (1 <=? day d) && (day d <=? daysInMonth (year d) (month d)).

(** [DayFromYear(y)]: the day number of 1 January of year [y]; day 0 is
    1 January 1970. *)
Definition dayFromYear (y : Z) : Z :=
  365 * (y - 1970) + (y - 1969) / 4 - (y - 1901) / 100 + (y - 1601) / 400.

Definition daysBeforeMonth (leap : bool) (m : Z) : Z :=
  let l := if leap then 1 else 0 in
  if m <=? 1 then 0
  else if m =? 2 then 31
  else if m =? 3 then 59 + l
  else if m =? 4 then 90 + l
  else if m =? 5 then 120 + l
  else if m =? 6 then 151 + l
  else if m =? 7 then 181 + l
  else if m =? 8 then 212 + l
  else if m =? 9 then 243 + l
  else if m =? 10 then 273 + l
  else if m =? 11 then 304 + l
  else 334 + l.

(** [MakeDay(year, month, date)] for a month in 1..12; a date past the
    end of the month runs on into the next. *)
Definition makeDay (y m d : Z) : Z :=
  dayFromYear y + daysBeforeMonth (isLeapYear y) m + d - 1.

(** [YearFromTime]: the largest year whose first day is not after day
    [n]. *)
Definition yearFromDay (n : Z) : Z :=
  let y0 := 1970 + (400 * n) / 146097 in
  if n <? dayFromYear y0 then y0 - 1
  else if dayFromYear (y0 + 1) <=? n then y0 + 1
  else y0.

(** [MonthFromTime] (here 1..12) for a day within the year. *)
Definition monthFromDayInYear (leap : bool) (dayInYear : Z) : Z :=
  let l := if leap then 1 else 0 in
  if dayInYear <? 31 then 1
  else if dayInYear <? 59 + l then 2
  else if dayInYear <? 90 + l then 3
  else if dayInYear <? 120 + l then 4
  else if dayInYear <? 151 + l then 5
  else if dayInYear <? 181 + l then 6
  else if dayInYear <? 212 + l then 7
  else if dayInYear <? 243 + l then 8
  else if dayInYear <? 273 + l then 9
  else if dayInYear <? 304 + l then 10
  else if dayInYear <? 334 + l then 11
  else 12.

(** [getFullYear], [getMonth] + 1 and [getDate] of a day number. *)
Definition civilFromDay (n : Z) : CivilDate :=
  let y := yearFromDay n in
  let leap := isLeapYear y in
  let dayInYear := n - dayFromYear y in
  let m := monthFromDayInYear leap dayInYear in
  {| year := y; month := m; day := dayInYear - daysBeforeMonth leap m + 1 |}.

(** The calendar stepped one day at a time, with no day numbers. *)
Definition nextDay (d : CivilDate) : CivilDate :=
  if day d <? daysInMonth (year d) (month d)
  then {| year := year d; month := month d; day := day d + 1 |}
  else if month d <? 12
  then {| year := year d; month := month d + 1; day := 1 |}
  else {| year := year d + 1; month := 1; day := 1 |}.

Definition prevDay (d : CivilDate) : CivilDate :=
  if 1 <? day d
  then {| year := year d; month := month d; day := day d - 1 |}
  else if 1 <? month d
  then {| year := year d; month := month d - 1;
          day := daysInMonth (year d) (month d - 1) |}
  else {| year := year d - 1; month := 12; day := 31 |}.

(** The date [offset] days after (before, when negative) [d]. *)
Definition shiftDate (d : CivilDate) (offset : Z) : CivilDate :=
  if 0 <=? offset then Nat.iter (Z.to_nat offset) nextDay d
  else Nat.iter (Z.to_nat (- offset)) prevDay d.

End Calendar.

Import Calendar.

(** ** [Date], [addDays], [format] and [generateCalendarDatepairs] *)

Section Datepairs.
Context `{Platform}.

Local Open Scope Z_scope.

Definition msPerDay : Z := 86400000.
Definition msPerMinute : Z := 60000.

Definition digitValue (c : ascii) : Z := Z.of_nat (nat_of_ascii c) - 48.

(** A date-only string [YYYY-MM-DD] read as midnight UTC of that day,
    a time value in milliseconds.  Node accepts a month 01..12 with a
    day 01..31 and lets a day past the end of the month run on. *)
Definition parseDateOnly (s : string) : option Z :=
  match s with
  | String y1 (String y2 (String y3 (String y4 (String h1
      (String m1 (String m2 (String h2 (String d1 (String d2 EmptyString))))))))) =>
      if forallb isDigit [y1; y2; y3; y4; m1; m2; d1; d2]
         && Ascii.eqb h1 "-" && Ascii.eqb h2 "-"
      then
        let y := 1000 * digitValue y1 + 100 * digitValue y2
                 + 10 * digitValue y3 + digitValue y4 in
        let m := 10 * digitValue m1 + digitValue m2 in
        let d := 10 * digitValue d1 + digitValue d2 in
        if (1 <=? m) && (m <=? 12) && (1 <=? d) && (d <=? 31)
        then Some (makeDay y m d * msPerDay)
        else None
      else None
  | _ => None
  end.

(** [new Date(s)]: the time value, [None] for the invalid date.  A
    date-only string is read as above; every other string is read by the
    engine's parser. *)
Definition newDate (s : string) : option Z :=
  match parseDateOnly s with
  | Some t => Some t
  | None => dateParse s
  end.

(** [LocalTime(t)] and [UTC(t)] of ECMAScript, and [TimeClip]: a time
    value is at most 8.64e15 milliseconds from the epoch. *)
Definition LocalTime (t : Z) : Z := t + LocalTZA t true.
Definition UTC (t : Z) : Z := t - LocalTZA t false.

Definition timeClip (t : Z) : option Z :=
  if Z.abs t <=? 8640000000000000 then Some t else None.

(** The number of the day that the host's calendar shows at time [t]. *)
Definition localDay (t : Z) : Z := LocalTime t / msPerDay.

(** [date.setDate(dayOfMonth)]: the day of the month is replaced in the
    local calendar, the local time of day is kept, and the result is
    taken back to UTC. *)
Definition setDate (t : Z) (dayOfMonth : Z) : option Z :=
  let local := LocalTime t in
  let d := civilFromDay (local / msPerDay) in
  timeClip (UTC (makeDay (year d) (month d) dayOfMonth * msPerDay
                 + local mod msPerDay)).

(** [addDays(date, amount)] of date-fns: a copy of the date when the
    amount is zero, and otherwise
    [date.setDate(date.getDate() + amount)]. *)
Definition addDays (date : option Z) (amount : Z) : option Z :=
  match date with
  | None => None
  | Some t =>
      if amount =? 0 then Some t
      else setDate t (day (civilFromDay (localDay t)) + amount)
  end.

(** [String(n).padStart(targetLength, "0")] *)
Fixpoint zeros (n : nat) : string :=
  match n with
  | O => EmptyString
  | S k => String "0" (zeros k)
  end.

Definition addLeadingZeros (n : Z) (targetLength : nat) : string :=
  let digits := showZ (Z.abs n) in
  (if n <? 0 then "-" else "")
  +:+ zeros (targetLength - String.length digits) +:+ digits.

(** The local calendar date of a time value. *)
Definition localDate (t : Z) : CivilDate := civilFromDay (localDay t).

(** [format(date, "yyyy-MM-dd")]: the local date; the invalid date
    makes it throw. *)
Definition formatYMD (date : option Z) : JsResult string :=
  match date with
  | None => Throw RangeError
  | Some t =>
      let d := localDate t in
      let y := if 0 <? year d then year d else 1 - year d in
      Ok (addLeadingZeros y 4 +:+ "-" +:+ addLeadingZeros (month d) 2
          +:+ "-" +:+ addLeadingZeros (day d) 2)
  end.

(** [isValid(date)] of date-fns, and the text that [format] gives for
    a valid date. *)
Definition isValid (date : option Z) : bool :=
  match date with
  | Some _ => true
  | None => false
  end.

Definition formatted (date : option Z) : string :=
  match formatYMD date with
  | Ok text => text
  | Throw _ => EmptyString
  end.

(** The values of [i] and [j] in [for (let i = -3; i <= 3; i++)]. *)
Definition dayOffsets : list Z := seqZ (-3) 7.

Definition generateCalendarDatepairs (departureDate returnDate : string)
  : JsResult (list string) :=
  let _departure := newDate departureDate in
  let _return := newDate returnDate in
  forEachJs
    (fun datepairs i =>
       let newDeparture := addDays _departure i in
       forEachJs
         (fun datepairs j =>
            let newReturn := addDays _return j in
            a <- formatYMD newDeparture ;;;
            b <- formatYMD newReturn ;;;
            Ok (datepairs ++ [a +:+ ">" +:+ b]))
         dayOffsets datepairs)
    dayOffsets [].

End Datepairs.

(** The wording of the specification, for comparison with
    [generateCalendarDatepairs]: the product of the day offsets -3..+3
    on each pivot, every pair written [YYYY-MM-DD>YYYY-MM-DD]. *)
Definition isoDate (d : CivilDate) : string :=
  addLeadingZeros (year d) 4 +:+ "-" +:+ addLeadingZeros (month d) 2
  +:+ "-" +:+ addLeadingZeros (day d) 2.

Definition datepairs_spec (departure return_ : CivilDate) : list string :=
  flat_map
    (fun i =>
       map (fun j => isoDate (shiftDate departure i) +:+ ">"
                     +:+ isoDate (shiftDate return_ j))
           [-3; -2; -1; 0; 1; 2; 3]%Z)
    [-3; -2; -1; 0; 1; 2; 3]%Z.

(** ** Sample hosts and upstream answers used in the examples *)

(** The UTC date-time form [YYYY-MM-DDTHH:mm:ssZ] of ECMAScript. *)
Definition twoDigits (s : string) : option Z :=
  match s with
  | String a (String b EmptyString) =>
      if isDigit a && isDigit b then Some (10 * digitValue a + digitValue b)%Z
      else None
  | _ => None
  end.

Definition parseDateTimeUTC (s : string) : option Z :=
  if (String.length s =? 20)%nat
     && String.eqb (substring 10 1 s) "T" && String.eqb (substring 13 1 s) ":"
     && String.eqb (substring 16 1 s) ":" && String.eqb (substring 19 1 s) "Z"
  then
    match parseDateOnly (substring 0 10 s), twoDigits (substring 11 2 s),
          twoDigits (substring 14 2 s), twoDigits (substring 17 2 s) with
    | Some midnight, Some h, Some m, Some sec =>
        if ((h <=? 23) && (m <=? 59) && (sec <=? 59))%Z
        then Some (midnight + ((h * 60 + m) * 60 + sec) * 1000)%Z
        else None
    | _, _, _, _ => None
    end
  else None.

(** A host with a given decoder, a given parser of dates and a given
    time zone, which changes nothing of the text outside ASCII. *)
Definition hostOf (decode : string -> JsResult Response)
    (parse : string -> option Z) (zone : Z -> bool -> Z) : Platform :=
  {| Num := Z;
     parseFloat := fun _ => 0%Z;
     currencyFormat := fun currency total => currency +:+ " " +:+ total;
     dateFnsFormat := fun timestamp _ => Ok timestamp;
     stopDurationText := fun _ _ => "1 h 0 min";
     JSON_parse := decode;
     unicodeToUpperCase := fun s => s;
     unicodeToLowerCase := fun s => s;
     unicodeCapitalize := fun s => s;
     unicodeToLowerCase_hyphen := fun _ Hs => Hs;
     unicodeCapitalize_hyphen := fun _ Hs => Hs;
     dateParse := parse;
     LocalTZA := zone |}.

(** A host that reads no other dates than date-only strings. *)
Definition zoneHost (decode : string -> JsResult Response) (zone : Z -> bool -> Z)
  : Platform :=
  hostOf decode (fun _ => None) zone.

(** A host whose local time is a fixed number of minutes east of UTC. *)
Definition hostWith (decode : string -> JsResult Response) (offset : Z) : Platform :=
  zoneHost decode (fun _ _ => (offset * msPerMinute)%Z).

(** A host in UTC that also reads the UTC date-time form. *)
Definition dateTimeHost : Platform :=
  hostOf (fun _ => Throw SyntaxError) parseDateTimeUTC (fun _ _ => 0%Z).

(** A host in UTC whose decoder is never used. *)
Definition sampleHost : Platform := hostWith (fun _ => Throw SyntaxError) 0.

Definition sampleSegment (id carrier : string) : RawSegment :=
  {| seg_id := id;
     seg_carrierCode := carrier;
     seg_operatingCarrierCode := None;
     seg_number := "100";
     seg_aircraftCode := "320";
     seg_departure_iataCode := "CDG";
     seg_departure_at := "2024-06-10T08:00:00";
     seg_arrival_iataCode := "LHR";
     seg_arrival_at := "2024-06-10T09:30:00";
     seg_duration := "PT1H30M" |}.

Definition sampleItinerary (duration : string) (segs : list RawSegment) : RawItinerary :=
  {| it_duration := duration; it_segments := segs |}.

Definition sampleOffer (id : string) (itineraries : list RawItinerary) : RawOffer :=
  {| of_id := id;
     of_price_total := "250.00";
     of_price_currency := "EUR";
     of_validatingAirlineCodes := ["AF"];
     of_itineraries := itineraries;
     of_fareDetailsBySegment :=
       Some [ {| fd_segmentId := "1"; fd_cabin := "ECONOMY" |};
              {| fd_segmentId := "2"; fd_cabin := "PREMIUM_ECONOMY" |};
              {| fd_segmentId := "3"; fd_cabin := "ECONOMY" |} ] |}.

Definition sampleResponse (offers : list RawOffer) : Response :=
  {| data := offers;
     dict_carriers := {[ "AF" := "AIR FRANCE"; "BA" := "BRITISH AIRWAYS" ]};
     dict_aircraft := {[ "320" := "AIRBUS A320" ]} |}.

(** Two offers with the same outbound carriers and different inbounds. *)
Definition sharedOutbound : list RawOffer :=
  [ sampleOffer "1" [ sampleItinerary "PT1H30M" [sampleSegment "1" "AF"];
                      sampleItinerary "PT1H40M" [sampleSegment "2" "AF"] ];
    sampleOffer "2" [ sampleItinerary "PT1H30M" [sampleSegment "1" "AF"];
                      sampleItinerary "PT3H5M" [sampleSegment "3" "BA"] ] ].

(** Two offers with different outbound carriers. *)
Definition distinctOutbounds : list RawOffer :=
  [ sampleOffer "1" [ sampleItinerary "PT1H30M" [sampleSegment "1" "AF"];
                      sampleItinerary "PT1H40M" [sampleSegment "2" "AF"] ];
    sampleOffer "2" [ sampleItinerary "PT1H30M" [sampleSegment "1" "BA"];
                      sampleItinerary "PT3H5M" [sampleSegment "3" "BA"] ] ].

(** Date-pair queries: one that is priced, one that is refused, one
    that is answered with no offer. *)
Definition pricedReply : Promise Response :=
  Fulfilled (sampleResponse [sampleOffer "1" []]).

Definition refusedReply : Promise Response := Rejected (ResponseError "429").

Definition noOfferReply : Promise Response := Fulfilled (sampleResponse []).

Definition sampleQueries : list (string * Promise Response) :=
  [ ("2024-06-10>2024-06-17", pricedReply);
    ("2024-06-11>2024-06-17", refusedReply);
    ("2024-06-12>2024-06-17", noOfferReply) ].

Definition repeatedQueries : list (string * Promise Response) :=
  [ ("2024-06-10>2024-06-17", pricedReply);
    ("2024-06-10>2024-06-17", pricedReply) ].

(** A host five hours west of Greenwich. *)
Definition westHost : Platform := hostWith (fun _ => Throw SyntaxError) (-300).

(** A host in the zone Pacific/Apia, which went from ten hours behind
    UTC to fourteen hours ahead at the end of 29 December 2011 and so
    had no 30 December: the change came at 2011-12-30T10:00Z, and a
    local time of the missing day is read with the offset of before. *)
Definition apiaChange : Z := (15338 * 86400000 + 10 * 3600000)%Z.

Definition apiaZone (t : Z) (isUTC : bool) : Z :=
  if isUTC
  then (if t <? apiaChange then -10 * 3600000 else 14 * 3600000)%Z
  else (if t <? apiaChange + 14 * 3600000 then -10 * 3600000 else 14 * 3600000)%Z.

Definition apiaHost : Platform := zoneHost (fun _ => Throw SyntaxError) apiaZone.

Definition june (d : Z) : CivilDate := {| year := 2024; month := 6; day := d |}.

(** The scope the offer loop would have if [priceFrom] were declared. *)
Definition scopeWithPriceFrom : list string := "priceFrom" :: offerLoopScope.

(** Itineraries given by their carriers alone, for [sameOutbound]. *)
Definition segmentOf (code name : string) : SegmentData :=
  {| sd_departureDate := ""; sd_arrivalDate := ""; sd_departureTime := "";
     sd_arrivalTime := ""; sd_duration := ""; sd_origin := "";
     sd_destination := ""; carrierCode := code; carrierName := name;
     sd_flightNumber := ""; sd_aircraft := ""; sd_class := "";
     sd_stopDuration := None |}.

Definition itineraryOf (segs : list SegmentData) : ItineraryData :=
  {| id_duration := ""; id_stops := ""; segments := segs;
     id_departure := None; id_arrival := None;
     id_priceFormatted := None; id_offerId := None |}.

Definition flightKeys (it : ItineraryData) : list string :=
  map flightKey (segments it).

(** ** Decidable checks used in the proofs about dates *)

Fixpoint forallFrom (f : Z -> bool) (start : Z) (count : nat) : bool :=
  match count with
  | O => true
  | S k => f start && forallFrom f (start + 1) k
  end.

Definition yearLength (leap : bool) : Z := if leap then 366 else 365.

(** Day [k] of a year: the month and day that [civilFromDay] reads off
    the tables are a date of that year, and day [k + 1] is the date
    that follows it. *)
Definition checkDayInYear (leap : bool) (k : Z) : bool :=
  let m := monthFromDayInYear leap k in
  let d := (k - daysBeforeMonth leap m + 1)%Z in
  let m' := monthFromDayInYear leap (k + 1) in
  let d' := (k + 1 - daysBeforeMonth leap m' + 1)%Z in
  (1 <=? m)%Z && (m <=? 12)%Z && (1 <=? d)%Z && (d <=? monthLength leap m)%Z
  && (if (k + 1 <? yearLength leap)%Z
      then if (d <? monthLength leap m)%Z
           then (m' =? m)%Z && (d' =? d + 1)%Z
           else (m <? 12)%Z && (m' =? m + 1)%Z && (d' =? 1)%Z
      else (m =? 12)%Z && (d =? 31)%Z).

(** Month [m], day [d] of a year: the tables read the date back. *)
Definition checkMonthDay (leap : bool) (m d : Z) : bool :=
  let k := (daysBeforeMonth leap m + d - 1)%Z in
  negb (d <=? monthLength leap m)%Z
  || ((0 <=? k)%Z && (k <? yearLength leap)%Z
      && (monthFromDayInYear leap k =? m)%Z).

(** Zero padding: [n] printed in a field of four (two) digits reads
    back as [n]. *)
Definition checkField4 (n : Z) : bool :=
  match addLeadingZeros n 4 with
  | String a (String b (String c (String d EmptyString))) =>
      forallb isDigit [a; b; c; d]
      && (1000 * digitValue a + 100 * digitValue b + 10 * digitValue c
          + digitValue d =? n)%Z
  | _ => false
  end.

Definition checkField2 (n : Z) : bool :=
  match addLeadingZeros n 2 with
  | String a (String b EmptyString) =>
      forallb isDigit [a; b] && (10 * digitValue a + digitValue b =? n)%Z
  | _ => false
  end.

(** A pivot: a date of the calendar, in a year that [YYYY] can hold and
    that leaves room for a few days on either side. *)
Definition isPivot (d : CivilDate) : bool :=
  validDate d && (1 <? year d)%Z && (year d <? 9999)%Z.

(** Midnight UTC of a date: what [new Date] makes of a pivot. *)
Definition midnightUTC (d : CivilDate) : Z :=
  (makeDay (year d) (month d) (day d) * msPerDay)%Z.

(** The day the host's calendar shows at the time [t], counted from the
    day of [t] in UTC when [t] is a midnight UTC: the same day at or east
    of Greenwich, the day before west of it. *)
Definition localShift `{Platform} (t : Z) : Z :=
  if (LocalTZA t true <? 0)%Z then (-1)%Z else 0%Z.

(** The offsets of the zone stay within a day. *)
Definition boundedZone `{Platform} : Prop :=
  forall t isUTC, (- msPerDay < LocalTZA t isUTC < msPerDay)%Z.

(** Around the time [t] the zone drops no day: moving the local date of
    [t] by up to three days lands on a time that the host's calendar
    shows as that day. *)
Definition keepsLocalDays `{Platform} (t : Z) : Prop :=
  forall n, (-3 <= n <= 3)%Z -> n <> 0%Z ->
    localDay (UTC (LocalTime t + n * msPerDay)) = (localDay t + n)%Z.



(** ** Further parts of the application *)

(** [datepair.split(">")[0]] and [datepair.split(">")[1]]: the departure
    and return dates that [pricesForDatepairs] sends upstream. *)
Definition queryDates (datepair : string) : option string * option string :=
  (split ">" datepair !! 0%nat, split ">" datepair !! 1%nat).

(** [datepairs.forEach]: one query per element, in order; the upstream
    call made for the [i]-th element settles as [reply i datepair]. *)
Definition dispatch (reply : nat -> string -> Promise Response) (datepairs : list string)
  : list (string * Promise Response) :=
  imap (fun i datepair => (datepair, reply i datepair)) datepairs.

(** [app.get("/calendar-view")]: the date pairs are generated first; an
    exception there leaves the handler before anything is dispatched. *)
Definition handleCalendarView `{Platform} (departureDate returnDate : string)
    (reply : nat -> string -> Promise Response) (settled : list Query)
  : JsResult (option (HttpResponse (gmap string PriceResult))) :=
  datepairs <- generateCalendarDatepairs departureDate returnDate ;;;
  Ok (handleFlightsForDatepairs (dispatch reply datepairs) settled).

(** A location record that has the two names [getSearchSuggestions]
    formats, and the suggestion made of it. *)
Definition hasNames (entry : LocationEntry) : bool :=
  match loc_name entry, loc_cityName entry with
  | Some _, Some _ => true
  | _, _ => false
  end.

Definition suggestionFor `{Platform} (entry : LocationEntry) : LocationSuggestion :=
  {| iataCode := loc_iataCode entry;
     name := formatString (default "" (loc_name entry));
     cityName := formatString (default "" (loc_cityName entry)) |}.

(** The last character of a string, if any. *)
Fixpoint lastChar (s : string) : option ascii :=
  match s with
  | EmptyString => None
  | String c EmptyString => Some c
  | String _ r => lastChar r
  end.

(** What the inner [offers.forEach] makes of one collected offer. *)
Definition withInbound (it2 inbound : ItineraryData) (collected : OfferData) : OfferData :=
  match outbound collected with
  | Some it1 =>
      if sameOutbound it1 it2
      then {| priceFrom := priceFrom collected;
              validatingAirline := validatingAirline collected;
              outbound := outbound collected;
              inbounds := Some (default [] (inbounds collected) ++ [inbound]);
              added := added collected |}
      else collected
  | None => collected
  end.

Definition matchesOutbound (it2 : ItineraryData) (collected : OfferData) : bool :=
  match outbound collected with
  | Some it1 => sameOutbound it1 it2
  | None => false
  end.

(** The record a settled query leaves, with its key. *)
Definition entryOf `{Platform} (q : Query) : string * PriceResult :=
  (q.1, recordOf q.2).


(** A collected offer given by the carrier of its outbound and by its
    inbound list, for the merging loop. *)
Definition collectedOffer (carrier : string) (ins : option (list ItineraryData))
  : OfferData :=
  {| priceFrom := "EUR 100.00";
     validatingAirline := Some carrier;
     outbound := Some (itineraryOf [segmentOf carrier ""]);
     inbounds := ins;
     added := false |}.

(* ================================================================== *)
(** * Part II: properties                                              *)
(* ================================================================== *)


(** ** Characters and string primitives *)

Section StringFacts.

Lemma append_cons x (a b : string) : String x a +:+ b = String x (a +:+ b).
Proof. reflexivity. Qed.

Lemma append_empty (b : string) : EmptyString +:+ b = b.
Proof. reflexivity. Qed.

Lemma avoids_app c a b : avoids c (a +:+ b) = avoids c a && avoids c b.
Proof.
  induction a as [|x a IH]; [reflexivity|].
  rewrite append_cons. cbn [avoids]. rewrite IH. now rewrite andb_assoc.
Qed.

Lemma allDigits_avoids c s :
  isDigit c = false -> allDigits s = true -> avoids c s = true.
Proof.
  intros Hc. induction s as [|x r IH]; simpl; [reflexivity|].
  intros [Hx Hr]%andb_prop. rewrite (IH Hr), andb_true_r.
  destruct (Ascii.eqb_spec x c) as [->|]; [congruence|reflexivity].
Qed.

Lemma prefix_empty r : String.prefix EmptyString r = true.
Proof. now destruct r. Qed.

Lemma prefix_cons c s x r :
  String.prefix (String c s) (String x r) = Ascii.eqb x c && String.prefix s r.
Proof.
  change (String.prefix (String c s) (String x r))
    with (if ascii_dec c x then String.prefix s r else false).
  destruct (ascii_dec c x) as [->|Hne].
  - now rewrite Ascii.eqb_refl.
  - destruct (Ascii.eqb_spec x c) as [->|]; [contradiction|reflexivity].
Qed.

Lemma prefix_single_cons c x r :
  String.prefix (String c EmptyString) (String x r) = Ascii.eqb x c.
Proof. now rewrite prefix_cons, prefix_empty, andb_true_r. Qed.

Lemma includes_cons needle x r :
  includes needle (String x r)
  = String.prefix needle (String x r) || includes needle r.
Proof. reflexivity. Qed.

Lemma splitFrom_cons sep x r :
  splitFrom sep 0 (String x r)
  = if String.prefix sep (String x r)
    then EmptyString :: splitFrom sep (String.length sep - 1) r
    else match splitFrom sep 0 r with
         | t :: ts => String x t :: ts
         | [] => [String x EmptyString]
         end.
Proof. reflexivity. Qed.

Lemma includes_avoids c s :
  avoids c s = true -> includes (String c EmptyString) s = false.
Proof.
  induction s as [|x r IH]; [reflexivity|].
  cbn [avoids]. intros [Hx Hr]%andb_prop.
  rewrite includes_cons, prefix_single_cons, (IH Hr).
  now destruct (Ascii.eqb x c).
Qed.

Lemma includes_here c r : includes (String c EmptyString) (String c r) = true.
Proof. now rewrite includes_cons, prefix_single_cons, Ascii.eqb_refl. Qed.

Lemma includes_app_r needle a b :
  includes needle b = true -> includes needle (a +:+ b) = true.
Proof.
  intros Hb. induction a as [|x a IH]; [exact Hb|].
  rewrite append_cons, includes_cons, IH. apply orb_true_r.
Qed.

Lemma splitFrom_single_avoids c a :
  avoids c a = true -> splitFrom (String c EmptyString) 0 a = [a].
Proof.
  induction a as [|x r IH]; [reflexivity|].
  cbn [avoids]. intros [Hx Hr]%andb_prop.
  rewrite splitFrom_cons, prefix_single_cons, (IH Hr).
  now destruct (Ascii.eqb x c).
Qed.

Lemma splitFrom_single_at c a b :
  avoids c a = true ->
  splitFrom (String c EmptyString) 0 (a +:+ String c b)
  = a :: splitFrom (String c EmptyString) 0 b.
Proof.
  induction a as [|x r IH].
  - intros _.
    now rewrite append_empty, splitFrom_cons, prefix_single_cons, Ascii.eqb_refl.
  - cbn [avoids]. intros [Hx Hr]%andb_prop.
    rewrite append_cons, splitFrom_cons, prefix_single_cons, (IH Hr).
    now destruct (Ascii.eqb x c).
Qed.

Lemma splitFrom_PT_avoids a :
  avoids "P" a = true -> splitFrom "PT" 0 a = [a].
Proof.
  induction a as [|x r IH]; [reflexivity|].
  cbn [avoids]. intros [Hx Hr]%andb_prop.
  rewrite splitFrom_cons, (IH Hr).
  rewrite prefix_cons. now destruct (Ascii.eqb x "P").
Qed.

Lemma split_PT_prefix r :
  avoids "P" r = true -> split "PT" ("PT" +:+ r) = [EmptyString; r].
Proof.
  intros Hr. unfold split. rewrite !append_cons, append_empty, splitFrom_cons.
  rewrite !prefix_cons, prefix_empty. cbn [Ascii.eqb Bool.eqb andb].
  cbn [String.length Nat.sub splitFrom].
  now rewrite splitFrom_PT_avoids.
Qed.

End StringFacts.

(** ** [formatDuration] *)

Section DurationFacts.

Variables h m : string.
Hypothesis digits_h : allDigits h = true.
Hypothesis digits_m : allDigits m = true.

Lemma avoid_h c : isDigit c = false -> avoids c h = true.
Proof. intros Hc. now apply allDigits_avoids. Qed.

Lemma avoid_m c : isDigit c = false -> avoids c m = true.
Proof. intros Hc. now apply allDigits_avoids. Qed.

Lemma formatDuration_hours_minutes :
  formatDuration ("PT" +:+ h +:+ "H" +:+ m +:+ "M")
  = Ok (h +:+ " h " +:+ m +:+ " min").
Proof.
  unfold formatDuration.
  assert (HH : includes "H" ("PT" +:+ h +:+ "H" +:+ m +:+ "M") = true).
  { apply includes_app_r, includes_app_r, includes_here. }
  assert (HM : includes "M" ("PT" +:+ h +:+ "H" +:+ m +:+ "M") = true).
  { apply includes_app_r, includes_app_r, (includes_app_r _ "H"),
      includes_app_r, includes_here. }
  rewrite HH, HM. cbn [andb].
  rewrite split_PT_prefix.
  2:{ rewrite avoids_app, avoid_h by reflexivity.
      rewrite !append_cons, append_empty. cbn [avoids andb].
      rewrite avoids_app, avoid_m by reflexivity. reflexivity. }
  cbn [lookup list_lookup defined bindJs].
  unfold split. rewrite !append_cons, !append_empty.
  rewrite splitFrom_single_at by (now apply avoid_h).
  rewrite splitFrom_single_avoids.
  2:{ rewrite avoids_app, avoid_m by reflexivity. reflexivity. }
  cbn [lookup list_lookup defined bindJs].
  rewrite splitFrom_single_at by (now apply avoid_m).
  reflexivity.
Qed.

Lemma formatDuration_minutes_only :
  formatDuration ("PT" +:+ m +:+ "M") = Ok (m +:+ " min").
Proof.
  unfold formatDuration.
  assert (HH : includes "H" ("PT" +:+ m +:+ "M") = false).
  { apply includes_avoids. rewrite !append_cons, append_empty. cbn [avoids andb].
    rewrite avoids_app, avoid_m by reflexivity. reflexivity. }
  assert (HM : includes "M" ("PT" +:+ m +:+ "M") = true).
  { apply includes_app_r, includes_app_r, includes_here. }
  rewrite HH, HM. cbn [andb bindJs].
  rewrite split_PT_prefix.
  2:{ rewrite avoids_app, avoid_m by reflexivity. reflexivity. }
  cbn [lookup list_lookup defined bindJs].
  unfold split. rewrite splitFrom_single_at by (now apply avoid_m).
  reflexivity.
Qed.

Lemma formatDuration_hours_only :
  formatDuration ("PT" +:+ h +:+ "H") = Ok (h +:+ " h").
Proof.
  unfold formatDuration.
  assert (HH : includes "H" ("PT" +:+ h +:+ "H") = true).
  { apply includes_app_r, includes_app_r, includes_here. }
  assert (HM : includes "M" ("PT" +:+ h +:+ "H") = false).
  { apply includes_avoids. rewrite !append_cons, append_empty. cbn [avoids andb].
    rewrite avoids_app, avoid_h by reflexivity. reflexivity. }
  rewrite HH, HM.
  rewrite split_PT_prefix.
  2:{ rewrite avoids_app, avoid_h by reflexivity. reflexivity. }
  cbn [lookup list_lookup defined bindJs].
  unfold split. rewrite splitFrom_single_at by (now apply avoid_h).
  reflexivity.
Qed.

End DurationFacts.

(** C5.  For a duration written [PT<h>H<m>M], [PT<m>M] or [PT<h>H]
    (the format of the function's header comment), with [h] and [m]
    strings of decimal digits, [formatDuration] returns "<h> h <m> min"
    when both components are present, "<m> min" when only the minutes
    are, and "<h> h" when only the hours are.  The components are copied
    as written, so a zero is rendered like any other value. *)
Theorem formatDuration_components (h m : string) :
  allDigits h = true -> allDigits m = true ->
  formatDuration ("PT" +:+ h +:+ "H" +:+ m +:+ "M")
    = Ok (h +:+ " h " +:+ m +:+ " min") /\
  formatDuration ("PT" +:+ m +:+ "M") = Ok (m +:+ " min") /\
  formatDuration ("PT" +:+ h +:+ "H") = Ok (h +:+ " h").
Proof.
  intros Hh Hm. split; [|split].
  - now apply formatDuration_hours_minutes.
  - now apply formatDuration_minutes_only.
  - now apply formatDuration_hours_only.
Qed.

(** The instances named by the specification. *)
Lemma formatDuration_components_witness :
  formatDuration "PT2H30M" = Ok "2 h 30 min" /\
  formatDuration "PT45M" = Ok "45 min" /\
  formatDuration "PT5H" = Ok "5 h" /\
  formatDuration "PT0H45M" = Ok "0 h 45 min" /\
  formatDuration "PT2H0M" = Ok "2 h 0 min".
Proof.
  split; [|split; [|split; [|split]]].
  - exact (proj1 (formatDuration_components "2" "30" eq_refl eq_refl)).
  - exact (proj1 (proj2 (formatDuration_components "" "45" eq_refl eq_refl))).
  - exact (proj2 (proj2 (formatDuration_components "5" "" eq_refl eq_refl))).
  - exact (proj1 (formatDuration_components "0" "45" eq_refl eq_refl)).
  - exact (proj1 (formatDuration_components "2" "0" eq_refl eq_refl)).
Defined.

(** Outside that format the function can throw: a duration with a day
    component has no "PT" in it. *)
Example formatDuration_day_component :
  formatDuration "P1DT2H30M" = Throw TypeError.
Proof. reflexivity. Qed.

(** ** [formatString] *)

Section FormatStringFacts.
Context `{Platform}.

Lemma capitalOf_upperChar c : capitalOf c = upperChar c.
Proof. destruct c as [[] [] [] [] [] [] [] []]; reflexivity. Qed.

Lemma smallOf_lowerChar c : smallOf c = lowerChar c.
Proof. destruct c as [[] [] [] [] [] [] [] []]; reflexivity. Qed.

Lemma mapChars_ext f g s : (forall c, f c = g c) -> mapChars f s = mapChars g s.
Proof.
  intros Hfg. induction s as [|c r IH]; [reflexivity|].
  cbn [mapChars]. now rewrite Hfg, IH.
Qed.

Lemma append_assoc_cons (a : string) c (b : string) :
  (a +:+ String c EmptyString) +:+ b = a +:+ String c b.
Proof.
  induction a as [|x a IH]; [reflexivity|].
  now rewrite !append_cons, IH.
Qed.

Lemma append_empty_r (a : string) : a +:+ EmptyString = a.
Proof.
  induction a as [|x a IH]; [reflexivity|]. now rewrite append_cons, IH.
Qed.

Lemma splitOn_nonempty p s : exists t ts, splitOn p s = t :: ts.
Proof.
  destruct s as [|c r]; simpl; [eauto|].
  destruct (p c); [eauto|]. destruct (splitOn p r); eauto.
Qed.

Lemma join_cons sep x y rest :
  join sep (x :: y :: rest) = x +:+ sep +:+ join sep (y :: rest).
Proof. reflexivity. Qed.

(** The scan from the left gathers the pieces that [split] cuts. *)
Lemma tokensFrom_splitOn s : forall current,
  exists t ts,
    splitOn isSpaceOrHyphen s = t :: ts /\
    tokensFrom current s = (current +:+ t) :: ts.
Proof.
  induction s as [|c r IH]; intros current.
  - exists EmptyString, []. split; [reflexivity|].
    cbn [tokensFrom]. now rewrite append_empty_r.
  - cbn [tokensFrom splitOn]. unfold isSpaceOrHyphen at 1.
    destruct (Ascii.eqb c " " || Ascii.eqb c "-").
    + destruct (IH EmptyString) as (t & ts & Hsplit & Htok).
      exists EmptyString, (t :: ts). rewrite Hsplit, Htok, append_empty.
      split; [reflexivity|]. now rewrite append_empty_r.
    + destruct (IH (current +:+ String c EmptyString)) as (t & ts & Hsplit & Htok).
      exists (String c t), ts. rewrite Hsplit, Htok.
      split; [reflexivity|]. now rewrite append_assoc_cons.
Qed.

Lemma tokens_splitOn s : tokens s = splitOn isSpaceOrHyphen s.
Proof.
  unfold tokens. destruct (tokensFrom_splitOn s EmptyString) as (t & ts & -> & ->).
  now rewrite append_empty.
Qed.

Lemma concat_join sep xs : String.concat sep xs = join sep xs.
Proof.
  induction xs as [|x [|y rest] IH]; [reflexivity|reflexivity|].
  rewrite join_cons, <- IH. reflexivity.
Qed.

Lemma capitalizeWord_titleToken word : capitalizeWord word = titleToken word.
Proof.
  destruct word as [|c rest]; [reflexivity|].
  unfold capitalizeWord, titleToken, toUpperCase, toLowerCase, lowercased.
  cbn [startsAscii charAt0 slice1 isAscii].
  destruct (isAsciiChar c); [|reflexivity].
  cbn [andb mapChars]. rewrite append_cons, append_empty, capitalOf_upperChar.
  f_equal. destruct (isAscii rest); [|reflexivity].
  apply mapChars_ext. intros x. now rewrite smallOf_lowerChar.
Qed.

(** On ASCII text the callback is [capitalizeAscii]. *)
Lemma isAscii_slice1 word : isAscii word = true -> isAscii (slice1 word) = true.
Proof.
  destruct word as [|c rest]; [reflexivity|].
  cbn [isAscii slice1]. now intros [_ Hr]%andb_prop.
Qed.

Lemma capitalizeWord_ascii word :
  isAscii word = true -> capitalizeWord word = capitalizeAscii word.
Proof.
  intros Hw. unfold capitalizeWord, capitalizeAscii, toUpperCase, toLowerCase.
  rewrite (isAscii_slice1 word Hw).
  destruct word as [|c rest]; [reflexivity|].
  cbn [isAscii] in Hw. apply andb_prop in Hw as [Hc Hr].
  cbn [startsAscii charAt0 isAscii]. now rewrite Hc.
Qed.

Lemma splitOn_ascii p s :
  isAscii s = true -> Forall (fun t => isAscii t = true) (splitOn p s).
Proof.
  induction s as [|c r IH]; cbn [isAscii splitOn].
  - intros _. now constructor.
  - intros [Hc Hr]%andb_prop. specialize (IH Hr).
    destruct (p c); [now constructor|].
    destruct (splitOn p r) as [|t ts];
      [constructor; [cbn [isAscii]; now rewrite Hc|constructor]|].
    apply Forall_cons in IH as [Ht Hts]. constructor; [|exact Hts].
    cbn [isAscii]. now rewrite Hc, Ht.
Qed.

(** The tokens of [s], capitalised and joined, are [titlePass] run with
    the token open; with the first token only lower-cased they are
    [titlePass] run inside a token. *)
Lemma titlePass_tokens s :
  exists t ts,
    splitOn isSpaceOrHyphen s = t :: ts /\
    titlePass true s = join " " (capitalizeAscii t :: map capitalizeAscii ts) /\
    titlePass false s = join " " (mapChars lowerChar t :: map capitalizeAscii ts).
Proof.
  induction s as [|c r (t & ts & Hsplit & Htrue & Hfalse)].
  - exists EmptyString, []. repeat split.
  - cbn [splitOn titlePass]. unfold isSpaceOrHyphen at 1.
    rewrite capitalOf_upperChar, smallOf_lowerChar.
    destruct (Ascii.eqb c " " || Ascii.eqb c "-") eqn:Hc.
    + exists EmptyString, (t :: ts). rewrite Hsplit, Htrue.
      repeat split.
    + rewrite Hsplit. exists (String c t), ts. rewrite Hfalse.
      split; [reflexivity|]. destruct ts; split; reflexivity.
Qed.

Lemma formatString_titlePass s :
  isAscii s = true -> formatString s = titlePass true s.
Proof.
  intros Hs. unfold formatString.
  assert (Hmap : forall l, Forall (fun t => isAscii t = true) l ->
                           map capitalizeWord l = map capitalizeAscii l).
  { intros l Hl. induction Hl as [|x l Hx _ IH]; [reflexivity|].
    cbn [map]. now rewrite (capitalizeWord_ascii x Hx), IH. }
  rewrite (Hmap _ (splitOn_ascii isSpaceOrHyphen s Hs)).
  destruct (titlePass_tokens s) as (t & ts & -> & -> & _). reflexivity.
Qed.

Lemma upperChar_not_hyphen c : c <> "-"%char -> upperChar c <> "-"%char.
Proof.
  destruct c as [[] [] [] [] [] [] [] []]; vm_compute; congruence.
Qed.

Lemma lowerChar_not_hyphen c : c <> "-"%char -> lowerChar c <> "-"%char.
Proof.
  destruct c as [[] [] [] [] [] [] [] []]; vm_compute; congruence.
Qed.

Lemma mapChars_avoids_hyphen f s :
  (forall c, c <> "-"%char -> f c <> "-"%char) ->
  avoids "-" s = true -> avoids "-" (mapChars f s) = true.
Proof.
  intros Hf. induction s as [|c r IH]; [reflexivity|].
  cbn [avoids mapChars]. intros [Hc Hr]%andb_prop. rewrite (IH Hr), andb_true_r.
  destruct (Ascii.eqb_spec c "-") as [->|Hne]; [discriminate Hc|].
  destruct (Ascii.eqb_spec (f c) "-") as [Heq|_]; [|reflexivity].
  now apply Hf in Hne.
Qed.

Lemma splitOn_avoids_hyphen s :
  Forall (fun t => avoids "-" t = true) (splitOn isSpaceOrHyphen s).
Proof.
  induction s as [|c r IH]; cbn [splitOn]; [now constructor|].
  destruct (isSpaceOrHyphen c) eqn:Hc; [now constructor|].
  assert (Hne : negb (Ascii.eqb c "-") = true).
  { destruct (Ascii.eqb_spec c "-") as [->|_]; [discriminate Hc|reflexivity]. }
  destruct (splitOn isSpaceOrHyphen r) as [|t ts].
  - constructor; [|constructor]. cbn [avoids]. now rewrite Hne.
  - apply Forall_cons in IH as [Ht Hts]. constructor; [|exact Hts].
    cbn [avoids]. now rewrite Ht, Hne.
Qed.

Lemma capitalizeWord_avoids_hyphen word :
  avoids "-" word = true -> avoids "-" (capitalizeWord word) = true.
Proof.
  destruct word as [|c rest]; [reflexivity|].
  intros Hw. unfold capitalizeWord. cbn [startsAscii charAt0 slice1].
  destruct (isAsciiChar c) eqn:Hascii; [|now apply unicodeCapitalize_hyphen].
  cbn [avoids] in Hw. apply andb_prop in Hw as [Hc Hr].
  unfold toUpperCase, toLowerCase. cbn [isAscii]. rewrite Hascii.
  cbn [andb mapChars]. rewrite append_cons, append_empty. cbn [avoids].
  apply andb_true_intro. split.
  - destruct (Ascii.eqb_spec c "-") as [->|Hne]; [discriminate Hc|].
    destruct (Ascii.eqb_spec (upperChar c) "-") as [Heq|_]; [|reflexivity].
    now apply upperChar_not_hyphen in Hne.
  - destruct (isAscii rest).
    + now apply mapChars_avoids_hyphen; [apply lowerChar_not_hyphen|].
    + now apply unicodeToLowerCase_hyphen.
Qed.

Lemma join_avoids_hyphen xs :
  Forall (fun t => avoids "-" t = true) xs -> avoids "-" (join " " xs) = true.
Proof.
  induction xs as [|x [|y rest] IH]; intros Hxs.
  - reflexivity.
  - now apply Forall_cons in Hxs as [Hx _].
  - apply Forall_cons in Hxs as [Hx Hrest]. rewrite join_cons, !avoids_app.
    now rewrite Hx, (IH Hrest).
Qed.

Lemma formatString_avoids_hyphen s : avoids "-" (formatString s) = true.
Proof.
  unfold formatString. apply join_avoids_hyphen.
  pose proof (splitOn_avoids_hyphen s) as Htoks.
  induction Htoks as [|t ts Ht _ IH]; cbn [map]; constructor; [|exact IH].
  now apply capitalizeWord_avoids_hyphen.
Qed.

(** C7.  [formatString] is the function the specification words, for
    every string: the input is split on spaces and hyphens, each token
    gets its first letter capitalised and the rest lower-cased, and the
    tokens are rejoined with single spaces.  On ASCII text, character by
    character: a space or a hyphen becomes a space, a character that
    opens a token is replaced by its capital letter and any other by its
    small letter.  So "NEW YORK CITY" becomes "New York City", and so
    does "new-york city". *)
Theorem formatString_title_case :
  (forall s, formatString s = formatTitleCase_spec s) /\
  (forall s, isAscii s = true -> formatString s = titlePass true s) /\
  formatString "NEW YORK CITY" = "New York City" /\
  formatString "new-york city" = "New York City".
Proof.
  split; [|split; [|split]].
  - intros s. unfold formatString, formatTitleCase_spec.
    etransitivity; [|symmetry; apply concat_join].
    rewrite (tokens_splitOn s). f_equal.
    apply map_ext, capitalizeWord_titleToken.
  - apply formatString_titlePass.
  - reflexivity.
  - reflexivity.
Qed.

(** C6, as the code has it.  The hyphen is a separator like the space,
    and the tokens are rejoined with spaces: "SAINT-LOUIS" becomes
    "Saint Louis", and no output of [formatString] contains a hyphen. *)
Theorem formatString_saint_louis :
  formatString "SAINT-LOUIS" = "Saint Louis" /\
  (forall s, includes "-" (formatString s) = false).
Proof.
  split; [reflexivity|].
  intros s. apply includes_avoids, formatString_avoids_hyphen.
Qed.

End FormatStringFacts.

(** C6, as the specification states it, fails on every host. *)
Lemma formatString_saint_louis_keeps_no_hyphen :
  ~ (exists host : Platform, @formatString host "SAINT-LOUIS" = "Saint-Louis").
Proof. intros [host Heq]. vm_compute in Heq. discriminate Heq. Qed.

(** ** [sameOutbound] *)

Lemma arrayIncludes_elem_of xs x : arrayIncludes xs x = true <-> x ∈ xs.
Proof.
  unfold arrayIncludes. rewrite existsb_exists, list_elem_of_In. split.
  - intros (y & Hy & Heq). apply String.eqb_eq in Heq. now subst.
  - intros Hx. exists x. split; [exact Hx|apply String.eqb_refl].
Qed.

Lemma sameOutbound_spec it1 it2 :
  sameOutbound it1 it2 = true <->
  length (segments it1) = length (segments it2) /\
  (forall k, k ∈ flightKeys it1 -> k ∈ flightKeys it2).
Proof.
  unfold sameOutbound, flightKeys.
  destruct (Nat.eqb_spec (length (segments it1)) (length (segments it2))) as [Hlen|Hlen];
    cbn [negb].
  - rewrite forallb_forall. split.
    + intros Hall. split; [exact Hlen|]. intros k Hk.
      apply arrayIncludes_elem_of, Hall, list_elem_of_In, Hk.
    + intros [_ Hall] k Hk.
      apply arrayIncludes_elem_of, Hall, list_elem_of_In, Hk.
  - split; [discriminate|]. intros [Heq _]. contradiction.
Qed.

Lemma flightKeys_length it : length (flightKeys it) = length (segments it).
Proof. unfold flightKeys. apply length_map. Qed.

Lemma sameOutbound_of_permutation it1 it2 :
  flightKeys it1 ≡ₚ flightKeys it2 -> sameOutbound it1 it2 = true.
Proof.
  intros Hperm. apply sameOutbound_spec. split.
  - rewrite <- !flightKeys_length. now apply Permutation_length.
  - intros k Hk. now rewrite <- Hperm.
Qed.

(** C3, as the code has it.  [sameOutbound it1 it2] holds exactly when
    the two itineraries have the same number of segments and every
    carrierCode+carrierName concatenation of the first occurs among those
    of the second.  Equal multisets of concatenations always pass, and
    when the concatenations of the first itinerary are pairwise distinct
    the test passes only for equal multisets. *)
Theorem sameOutbound_inclusion (it1 it2 : ItineraryData) :
  (sameOutbound it1 it2 = true <->
     length (segments it1) = length (segments it2) /\
     forall k, k ∈ flightKeys it1 -> k ∈ flightKeys it2) /\
  (flightKeys it1 ≡ₚ flightKeys it2 -> sameOutbound it1 it2 = true) /\
  (NoDup (flightKeys it1) ->
     (sameOutbound it1 it2 = true <-> flightKeys it1 ≡ₚ flightKeys it2)).
Proof.
  split; [apply sameOutbound_spec|]. split; [apply sameOutbound_of_permutation|].
  intros Hnodup. split; [|apply sameOutbound_of_permutation].
  intros [Hlen Hincl]%sameOutbound_spec.
  apply submseteq_length_Permutation.
  - now apply NoDup_submseteq.
  - rewrite !flightKeys_length. lia.
Qed.

Lemma sameOutbound_inclusion_witness :
  sameOutbound (itineraryOf [segmentOf "AF" "Air France"; segmentOf "KL" "Klm"])
               (itineraryOf [segmentOf "KL" "Klm"; segmentOf "AF" "Air France"])
  = true.
Proof.
  apply (proj1 (proj2 (sameOutbound_inclusion _ _))).
  apply Permutation_swap.
Defined.

(** C3, as the specification states it, fails: a repeated carrier in
    the first itinerary is matched twice by one segment of the second, so
    two same-length itineraries with different carrier multisets pass
    the test, and only in that order. *)
Lemma sameOutbound_not_multiset_equality :
  let it1 := itineraryOf [segmentOf "AF" "Air France"; segmentOf "AF" "Air France"] in
  let it2 := itineraryOf [segmentOf "AF" "Air France"; segmentOf "BA" "British Airways"] in
  length (segments it1) = length (segments it2) /\
  sameOutbound it1 it2 = true /\
  ~ flightKeys it1 ≡ₚ flightKeys it2 /\
  sameOutbound it2 it1 = false.
Proof.
  cbv zeta. repeat split.
  intros Hperm.
  assert (Hin : "BABritish Airways" ∈
                flightKeys (itineraryOf [segmentOf "AF" "Air France";
                                         segmentOf "AF" "Air France"])).
  { rewrite Hperm. vm_compute. right. left. }
  vm_compute in Hin.
  repeat (apply elem_of_cons in Hin as [Hin|Hin]; [discriminate Hin|]).
  now apply elem_of_nil in Hin.
Qed.

(** ** [getFlightOffers] and its handler *)

Section AggregatorFacts.
Context `{Platform}.

Lemma readIdentifier_priceFrom :
  readIdentifier offerLoopScope "priceFrom" = Throw ReferenceError.
Proof. reflexivity. Qed.

(** The body of the offer loop throws on its first turn: it reads
    [priceFrom], which nothing declares. *)
Lemma processOffer_throws response currency offers offer :
  processOffer offerLoopScope response currency offers offer = Throw ReferenceError.
Proof. reflexivity. Qed.

Lemma reshapeOffers_throws body :
  exists e, reshapeOffers offerLoopScope body = Throw e.
Proof.
  unfold reshapeOffers.
  destruct (JSON_parse body) as [response|e]; [|now exists e].
  cbn [bindJs]. destruct (data response) as [|first rest]; [now exists TypeError|].
  cbn [lookup list_lookup defined bindJs]. unfold newCurrencyFormatter.
  destruct (isWellFormedCurrencyCode (of_price_currency first));
    [|now exists RangeError].
  now exists ReferenceError.
Qed.

Lemma reshapeOffers_reference_error body response first rest :
  JSON_parse body = Ok response ->
  data response = first :: rest ->
  isWellFormedCurrencyCode (of_price_currency first) = true ->
  reshapeOffers offerLoopScope body = Throw ReferenceError.
Proof.
  intros Hparse Hdata Hcur. unfold reshapeOffers.
  rewrite Hparse. cbn [bindJs]. rewrite Hdata.
  cbn [lookup list_lookup defined bindJs]. unfold newCurrencyFormatter.
  now rewrite Hcur.
Qed.

Lemma getFlightOffers_fulfils_error upstream :
  exists e, getFlightOffers upstream = Fulfilled (ErrorValue e).
Proof.
  destruct upstream as [body|e]; [|now exists e].
  destruct (reshapeOffers_throws body) as [e He]. exists e.
  unfold getFlightOffers, getFlightOffersIn, schedule, then_, catch_.
  now rewrite He.
Qed.

(** C4, on the code.  No upstream answer makes [getFlightOffers] deliver
    a list of offers: its promise is always fulfilled with an error
    value.  For an answer that decodes to at least one offer priced in a
    well-formed currency that error is the [ReferenceError] of the
    undeclared [priceFrom], thrown before any itinerary is looked at. *)
Theorem getFlightOffers_never_aggregates :
  (forall upstream, exists e, getFlightOffers upstream = Fulfilled (ErrorValue e)) /\
  (forall body response first rest,
      JSON_parse body = Ok response ->
      data response = first :: rest ->
      isWellFormedCurrencyCode (of_price_currency first) = true ->
      getFlightOffers (Fulfilled body) = Fulfilled (ErrorValue ReferenceError)).
Proof.
  split; [exact getFlightOffers_fulfils_error|].
  intros body response first rest Hparse Hdata Hcur.
  unfold getFlightOffers, getFlightOffersIn, schedule, then_, catch_.
  now rewrite (reshapeOffers_reference_error _ _ _ _ Hparse Hdata Hcur).
Qed.

(** C1, on the code.  Whatever the upstream call does, the handler of
    [/get-flight-offers] answers 200: the [.catch] that ends
    [getFlightOffers] returns the error, which fulfils the promise, so
    the handler's own [.catch] (the 500 branch) never runs.  A rejected
    upstream call is answered 200 with the error as body. *)
Theorem handleGetFlightOffers_always_200 :
  (forall upstream, status (handleGetFlightOffers upstream) = 200%Z) /\
  (forall e, handleGetFlightOffers (Rejected e)
             = {| status := 200%Z; body := ErrorValue e |}) /\
  (forall upstream, exists e, body (handleGetFlightOffers upstream) = ErrorValue e).
Proof.
  split; [|split].
  - intros upstream. unfold handleGetFlightOffers.
    destruct (getFlightOffers_fulfils_error upstream) as [e ->].
    reflexivity.
  - reflexivity.
  - intros upstream. unfold handleGetFlightOffers.
    destruct (getFlightOffers_fulfils_error upstream) as [e ->].
    now exists e.
Qed.

End AggregatorFacts.

(** The sibling handler does what C1 asks: a rejected location search is
    answered 500 with the error. *)
Example handleSearchSuggestions_rejected `{Platform} e :
  handleSearchSuggestions (Rejected e)
  = {| status := 500%Z; body := SuggestionsError e |}.
Proof. reflexivity. Qed.

(** With [priceFrom] bound, the loop groups as the specification says:
    two offers that share their outbound carriers become one offer with
    two inbounds, and two offers with different outbound carriers stay
    two offers, in upstream order. *)
Example reshapeOffers_shared_outbound :
  exists offer i1 i2,
    @reshapeOffers (hostWith (fun _ => Ok (sampleResponse sharedOutbound)) 0)
      scopeWithPriceFrom "body" = Ok [offer] /\
    inbounds offer = Some [i1; i2] /\
    id_offerId i1 = Some "1" /\ id_offerId i2 = Some "2".
Proof. vm_compute. do 3 eexists. repeat split. Qed.

Example reshapeOffers_distinct_outbounds :
  exists o1 o2 i1 i2,
    @reshapeOffers (hostWith (fun _ => Ok (sampleResponse distinctOutbounds)) 0)
      scopeWithPriceFrom "body" = Ok [o1; o2] /\
    inbounds o1 = Some [i1] /\ inbounds o2 = Some [i2] /\
    id_offerId i1 = Some "1" /\ id_offerId i2 = Some "2".
Proof. vm_compute. do 4 eexists. repeat split. Qed.

Example reshapeOffers_as_written :
  @reshapeOffers (hostWith (fun _ => Ok (sampleResponse sharedOutbound)) 0)
    offerLoopScope "body" = Throw ReferenceError.
Proof. reflexivity. Qed.

(** ** [pricesForDatepairs] *)

Section ScannerFacts.
Context `{Platform}.

Lemma recordOf_succeeds reply :
  (succeeds reply = true -> exists price text, recordOf reply = PriceOf price text) /\
  (succeeds reply = false -> recordOf reply = EmptyObject).
Proof.
  destruct reply as [response|e]; cbn [succeeds recordOf].
  - destruct (priceOfResponse response) as [r|e] eqn:Hr.
    + split; [|discriminate]. intros _.
      unfold priceOfResponse in Hr.
      destruct (data response !! 0%nat) as [first|]; [|discriminate Hr].
      cbn [defined bindJs] in Hr.
      destruct (newCurrencyFormatter (of_price_currency first)); [|discriminate Hr].
      cbn [bindJs] in Hr. injection Hr as <-. eauto.
    + split; [discriminate|reflexivity].
  - split; [discriminate|reflexivity].
Qed.

(** One query's chain, whatever its outcome: its record is stored, the
    answer is counted, and the promise is resolved if that was the last
    answer. *)
Lemma settle_unfold n st q :
  settle n st q =
  {| flights := recordStep (flights st) q;
     responseCount := S (responseCount st);
     errorCount := errorCount st + (if succeeds q.2 then 0 else 1);
     resolved := resolved st || (S (responseCount st) =? n)%nat |}.
Proof.
  destruct q as [datepair [response|e]]; unfold settle, recordStep, schedule;
    cbn [fst snd then_ catch_ succeeds recordOf].
  - unfold onThen. destruct (priceOfResponse response) as [r|e];
      cbn [bindJs onFinally onCatch flights responseCount errorCount resolved].
    + now rewrite Nat.add_0_r.
    + now rewrite Nat.add_1_r.
  - cbn [onFinally onCatch flights responseCount errorCount resolved].
    now rewrite Nat.add_1_r.
Qed.

Lemma failures_cons q settled :
  failures (q :: settled) = ((if succeeds q.2 then 0 else 1) + failures settled)%nat.
Proof.
  unfold failures. rewrite filter_cons.
  destruct (succeeds q.2); [|reflexivity].
  now rewrite decide_False by discriminate.
Qed.

Lemma fold_settle n settled : forall st,
  let st' := fold_left (settle n) settled st in
  flights st' = fold_left recordStep settled (flights st) /\
  responseCount st' = (responseCount st + length settled)%nat /\
  errorCount st' = (errorCount st + failures settled)%nat /\
  (resolved st' = true <->
   resolved st = true \/
   (responseCount st < n /\ n <= responseCount st + length settled)%nat).
Proof.
  induction settled as [|q rest IH]; intros st; cbn [fold_left length].
  - repeat split; try (now rewrite Nat.add_0_r); [tauto|].
    intros [Hr|[? ?]]; [exact Hr|lia].
  - specialize (IH (settle n st q)). cbv zeta in IH.
    destruct IH as (Hf & Hc & He & Hr).
    set (st' := fold_left (settle n) rest (settle n st q)) in *.
    rewrite settle_unfold in Hf, Hc, He, Hr.
    cbn [flights responseCount errorCount resolved] in Hf, Hc, He, Hr.
    repeat split.
    + exact Hf.
    + lia.
    + rewrite failures_cons. lia.
    + intros Hres. apply Hr in Hres as [Hres|Hres]; [|lia].
      apply orb_prop in Hres as [Hres|Hres]; [now left|].
      apply Nat.eqb_eq in Hres. lia.
    + intros Hres. apply Hr.
      destruct (resolved st) eqn:Hst; [now left|].
      destruct Hres as [Hres|Hres]; [discriminate|].
      destruct (Nat.eqb_spec (S (responseCount st)) n); [now left|right; lia].
Qed.

(** The promise is fulfilled exactly when the list is non-empty and as
    many queries have settled as were dispatched. *)
Lemma pricesForDatepairs_resolved queries settled :
  resolved (pricesForDatepairs queries settled) = true <->
  (0 < length queries <= length settled)%nat.
Proof.
  unfold pricesForDatepairs.
  destruct (fold_settle (length queries) settled scanStart) as (_ & _ & _ & Hr).
  rewrite Hr. cbn [scanStart resolved responseCount]. split.
  - intros [?|?]; [discriminate|lia].
  - intros ?. right. lia.
Qed.

Lemma pricesForDatepairs_flights queries settled :
  flights (pricesForDatepairs queries settled) = fold_left recordStep settled ∅.
Proof.
  unfold pricesForDatepairs.
  now destruct (fold_settle (length queries) settled scanStart) as (-> & _).
Qed.

(** What ends up under a key: the record of one of the settled queries
    for that key, if there is one. *)
Lemma fold_recordStep_lookup settled : forall (m : gmap string PriceResult) k,
  k <> "__proto__" ->
  (k ∈ settled.*1 ->
     exists q, q ∈ settled /\ q.1 = k /\
       fold_left recordStep settled m !! k = Some (recordOf q.2)) /\
  (k ∉ settled.*1 -> fold_left recordStep settled m !! k = m !! k).
Proof.
  induction settled as [|q rest IH]; intros m k Hk; cbn [fold_left fmap list_fmap].
  - split; [intros Hin; now apply elem_of_nil in Hin|reflexivity].
  - destruct (IH (recordStep m q) k Hk) as [IHin IHout].
    destruct (decide (k ∈ rest.*1)) as [Hrest|Hrest].
    + split; [|intros Hn; exfalso; apply Hn; now right].
      intros _. destruct (IHin Hrest) as (q' & Hq' & Hkey & Hlook).
      exists q'. repeat split; [now right|exact Hkey|exact Hlook].
    + rewrite (IHout Hrest). unfold recordStep, setProperty.
      split.
      * intros [Heq|Hin]%elem_of_cons; [|contradiction].
        exists q. split; [now left|]. split; [now symmetry|].
        destruct (decide (q.1 = "__proto__")) as [Hp|_]; [congruence|].
        rewrite Heq. apply lookup_insert_eq.
      * intros Hn. apply not_elem_of_cons in Hn as [Hne _].
        destruct (decide (q.1 = "__proto__")); [reflexivity|].
        now apply lookup_insert_ne.
Qed.

Lemma fst_unique (l : list Query) q q' :
  NoDup l.*1 -> q ∈ l -> q' ∈ l -> q.1 = q'.1 -> q = q'.
Proof.
  induction l as [|x rest IH]; cbn [fmap list_fmap].
  - intros _ Hq. now apply elem_of_nil in Hq.
  - intros [Hx Hnd]%NoDup_cons [->|Hq]%elem_of_cons [->|Hq']%elem_of_cons Hkey.
    + reflexivity.
    + exfalso. apply Hx. rewrite Hkey. now apply list_elem_of_fmap_2.
    + exfalso. apply Hx. rewrite <- Hkey. now apply list_elem_of_fmap_2.
    + now apply IH.
Qed.

Lemma fold_recordStep_dom settled : forall m : gmap string PriceResult,
  Forall (fun q : Query => q.1 <> "__proto__") settled ->
  dom (fold_left recordStep settled m) = dom m ∪ list_to_set settled.*1.
Proof.
  induction settled as [|q rest IH]; intros m Hkeys; cbn [fold_left fmap list_fmap].
  - cbn [list_to_set foldr]. now rewrite (right_id_L ∅ (∪)).
  - apply Forall_cons in Hkeys as [Hq Hrest]. rewrite (IH _ Hrest).
    unfold recordStep, setProperty. rewrite decide_False by exact Hq.
    rewrite dom_insert_L, list_to_set_cons.
    rewrite (comm_L (∪) {[q.1]} (dom m)). now rewrite (assoc_L (∪)).
Qed.





(** C10.  With no date pair nothing is dispatched, so no [.finally]
    callback ever compares the counter with the length: the promise stays
    pending whatever happens, and the handler never answers.  With at
    least one date pair the promise is fulfilled once every query has
    settled. *)
Theorem pricesForDatepairs_empty_never_settles :
  (forall settled, scanPromise (pricesForDatepairs [] settled) = None) /\
  (forall settled, handleFlightsForDatepairs [] settled = None) /\
  (forall queries settled,
     queries <> [] -> settled ≡ₚ queries ->
     is_Some (scanPromise (pricesForDatepairs queries settled))).
Proof.
  assert (Hpending : forall settled, scanPromise (pricesForDatepairs [] settled) = None).
  { intros settled. unfold scanPromise.
    destruct (resolved (pricesForDatepairs [] settled)) eqn:Hres; [|reflexivity].
    apply pricesForDatepairs_resolved in Hres. cbn in Hres. lia. }
  split; [exact Hpending|]. split.
  - intros settled. unfold handleFlightsForDatepairs. now rewrite Hpending.
  - intros queries settled Hne Hperm. unfold scanPromise.
    replace (resolved (pricesForDatepairs queries settled)) with true; [eauto|].
    symmetry. apply pricesForDatepairs_resolved.
    rewrite (Permutation_length Hperm). destruct queries; [contradiction|cbn; lia].
Qed.

(** C9, as the code has it.  The map sent by [/flights-for-datepairs]
    has one entry per distinct date pair of the input list: as many
    entries as the list has elements when no pair is repeated. *)
Theorem flightsForDatepairs_size (queries settled : list Query)
    (response : HttpResponse (gmap string PriceResult)) :
  Forall (fun q : Query => q.1 <> "__proto__") queries ->
  settled ⊆+ queries ->
  handleFlightsForDatepairs queries settled = Some response ->
  status response = 200%Z /\
  size (body response) = length (remove_dups queries.*1) /\
  (NoDup queries.*1 -> size (body response) = length queries).
Proof.
  intros Hkeys Hsub Hsent. unfold handleFlightsForDatepairs, scanPromise in Hsent.
  destruct (resolved (pricesForDatepairs queries settled)) eqn:Hres;
    [|discriminate Hsent].
  cbn in Hsent. injection Hsent as <-. cbn [send status body].
  apply pricesForDatepairs_resolved in Hres.
  assert (Hperm : settled ≡ₚ queries).
  { apply submseteq_length_Permutation; [exact Hsub|lia]. }
  assert (Hsize : size (flights (pricesForDatepairs queries settled))
                  = length (remove_dups queries.*1)).
  { rewrite <- size_dom, pricesForDatepairs_flights, fold_recordStep_dom.
    2:{ now rewrite Hperm. }
    rewrite dom_empty_L, (left_id_L ∅ (∪)), Hperm.
    rewrite <- (size_list_to_set (C := gset string) (remove_dups queries.*1))
      by apply NoDup_remove_dups.
    f_equal. apply set_eq. intros k.
    now rewrite !elem_of_list_to_set, elem_of_remove_dups. }
  split; [reflexivity|]. split; [exact Hsize|].
  intros Hnodup. rewrite Hsize.
  transitivity (length queries.*1); [|apply length_fmap]. f_equal.
  clear -Hnodup. induction Hnodup as [|k l Hk Hl IH]; [reflexivity|].
  cbn [remove_dups]. destruct (decide_rel elem_of k l) as [Hin|_]; [contradiction|].
  now rewrite IH.
Qed.

End ScannerFacts.


Lemma pricesForDatepairs_empty_never_settles_witness :
  is_Some (scanPromise (@pricesForDatepairs sampleHost
                          sampleQueries sampleQueries)).
Proof.
  apply (proj2 (proj2 (@pricesForDatepairs_empty_never_settles
                         sampleHost))).
  - discriminate.
  - reflexivity.
Defined.


(** C9, as the specification states it, fails: a pair posted twice is
    one key of the map. *)
Lemma flightsForDatepairs_repeated_pair :
  exists response,
    @handleFlightsForDatepairs sampleHost
      repeatedQueries repeatedQueries = Some response /\
    status response = 200%Z /\
    size (body response) = 1%nat /\
    length repeatedQueries = 2%nat.
Proof. eexists. vm_compute. repeat split. Qed.

Lemma flightsForDatepairs_size_witness :
  size (body (send (flights (@pricesForDatepairs
                               sampleHost
                               sampleQueries sampleQueries)))) = 3%nat.
Proof.
  refine (proj2 (proj2 (@flightsForDatepairs_size
            sampleHost
            sampleQueries sampleQueries _ _ _ _)) _).
  - repeat constructor; discriminate.
  - reflexivity.
  - reflexivity.
  - repeat constructor; vm_compute;
      intros Hin; repeat (apply elem_of_cons in Hin as [Hin|Hin]; [discriminate Hin|]);
      now apply elem_of_nil in Hin.
Defined.

(** ** The calendar *)

Section CalendarFacts.

Local Open Scope Z_scope.

Lemma forallFrom_spec f count : forall start n,
  forallFrom f start count = true ->
  start <= n < start + Z.of_nat count -> f n = true.
Proof.
  induction count as [|k IH]; intros start n Hall Hn; [lia|].
  cbn [forallFrom] in Hall. apply andb_prop in Hall as [Hhere Hrest].
  destruct (Z.eq_dec n start) as [->|Hne]; [exact Hhere|].
  apply (IH (start + 1)); [exact Hrest|lia].
Qed.

Lemma dayFromYear_step y :
  dayFromYear (y + 1) = dayFromYear y + yearLength (isLeapYear y).
Proof.
  unfold dayFromYear, isLeapYear, yearLength.
  destruct (Z.eqb_spec (y mod 4) 0), (Z.eqb_spec (y mod 100) 0),
    (Z.eqb_spec (y mod 400) 0);
    cbn [negb andb orb]; Z.div_mod_to_equations; lia.
Qed.

Lemma dayFromYear_lt y y' : y < y' -> dayFromYear y < dayFromYear y'.
Proof. unfold dayFromYear. intros Hlt. Z.div_mod_to_equations. lia. Qed.

(** [yearFromDay] is [YearFromTime]: the year whose days include [n]. *)
Lemma yearFromDay_bounds n :
  dayFromYear (yearFromDay n) <= n < dayFromYear (yearFromDay n + 1).
Proof.
  unfold yearFromDay.
  destruct (Z.ltb_spec n (dayFromYear (1970 + 400 * n / 146097))) as [Hlt|Hge].
  - unfold dayFromYear in *. Z.div_mod_to_equations. lia.
  - destruct (Z.leb_spec (dayFromYear (1970 + 400 * n / 146097 + 1)) n) as [Hle|Hgt].
    + unfold dayFromYear in *. Z.div_mod_to_equations. lia.
    + lia.
Qed.

Lemma yearFromDay_unique n y :
  dayFromYear y <= n < dayFromYear (y + 1) -> yearFromDay n = y.
Proof.
  intros Hy. pose proof (yearFromDay_bounds n) as HY.
  destruct (Z.lt_trichotomy (yearFromDay n) y) as [Hlt|[Heq|Hgt]]; [|exact Heq|].
  - destruct (Z.eq_dec (yearFromDay n + 1) y) as [Heq|Hne].
    + rewrite Heq in HY. lia.
    + assert (Hlt' : yearFromDay n + 1 < y) by lia.
      apply dayFromYear_lt in Hlt'. lia.
  - destruct (Z.eq_dec (y + 1) (yearFromDay n)) as [Heq|Hne].
    + rewrite Heq in Hy. lia.
    + assert (Hlt' : y + 1 < yearFromDay n) by lia.
      apply dayFromYear_lt in Hlt'. lia.
Qed.

Lemma dayInYear_table leap k :
  0 <= k < yearLength leap -> checkDayInYear leap k = true.
Proof.
  intros Hk.
  apply (forallFrom_spec (checkDayInYear leap) (Z.to_nat (yearLength leap)) 0).
  - destruct leap; vm_compute; reflexivity.
  - destruct leap; cbn [yearLength] in *; lia.
Qed.

Lemma monthDay_table leap m d :
  1 <= m <= 12 -> 1 <= d <= 31 -> checkMonthDay leap m d = true.
Proof.
  intros Hm Hd.
  apply (forallFrom_spec (fun d => checkMonthDay leap m d) 31 1); [|lia].
  apply (forallFrom_spec
           (fun m => forallFrom (fun d => checkMonthDay leap m d) 1 31) 12 1); [|lia].
  destruct leap; vm_compute; reflexivity.
Qed.

Lemma civilFromDay_in_year y k :
  0 <= k < yearLength (isLeapYear y) ->
  civilFromDay (dayFromYear y + k)
  = {| year := y;
       month := monthFromDayInYear (isLeapYear y) k;
       day := k - daysBeforeMonth (isLeapYear y)
                    (monthFromDayInYear (isLeapYear y) k) + 1 |}.
Proof.
  intros Hk. unfold civilFromDay.
  rewrite (yearFromDay_unique (dayFromYear y + k) y).
  - replace (dayFromYear y + k - dayFromYear y) with k by lia. reflexivity.
  - rewrite dayFromYear_step. lia.
Qed.

Lemma civilFromDay_decompose n :
  exists y k, n = dayFromYear y + k /\ 0 <= k < yearLength (isLeapYear y).
Proof.
  exists (yearFromDay n), (n - dayFromYear (yearFromDay n)).
  pose proof (yearFromDay_bounds n) as Hb. rewrite dayFromYear_step in Hb.
  split; lia.
Qed.

(** Day numbers and the stepped calendar agree. *)
Lemma civilFromDay_next n : civilFromDay (n + 1) = nextDay (civilFromDay n).
Proof.
  destruct (civilFromDay_decompose n) as (y & k & -> & Hk).
  rewrite (civilFromDay_in_year y k Hk).
  pose proof (dayInYear_table _ k Hk) as Htab.
  unfold checkDayInYear in Htab. cbv zeta in Htab.
  set (leap := isLeapYear y) in *.
  set (m := monthFromDayInYear leap k) in *.
  set (d := k - daysBeforeMonth leap m + 1) in *.
  apply andb_prop in Htab as [Hrange Hnext].
  unfold nextDay, daysInMonth. cbn [year month day]. fold leap.
  destruct (Z.ltb_spec (k + 1) (yearLength leap)) as [Hin|Hout].
  - replace (dayFromYear y + k + 1) with (dayFromYear y + (k + 1)) by lia.
    rewrite (civilFromDay_in_year y (k + 1)) by (fold leap; lia). fold leap.
    destruct (d <? monthLength leap m).
    + apply andb_prop in Hnext as [Hm Hd].
      apply Z.eqb_eq in Hm, Hd. now rewrite Hd, Hm.
    + apply andb_prop in Hnext as [Hnext Hd].
      apply andb_prop in Hnext as [Hlt Hm].
      apply Z.eqb_eq in Hm, Hd. now rewrite Hlt, Hd, Hm.
  - apply andb_prop in Hnext as [Hm Hd]. apply Z.eqb_eq in Hm, Hd.
    assert (Hlast : k + 1 = yearLength leap) by lia.
    replace (dayFromYear y + k + 1) with (dayFromYear (y + 1) + 0)
      by (rewrite dayFromYear_step; fold leap; lia).
    rewrite civilFromDay_in_year by (destruct (isLeapYear (y + 1)); cbn; lia).
    rewrite Hm, Hd.
    replace (31 <? monthLength leap 12) with false by (now destruct leap).
    cbn [Z.ltb Z.compare Pos.compare Pos.compare_cont].
    f_equal; now destruct (isLeapYear (y + 1)).
Qed.

Lemma civilFromDay_valid n : validDate (civilFromDay n) = true.
Proof.
  destruct (civilFromDay_decompose n) as (y & k & -> & Hk).
  rewrite (civilFromDay_in_year y k Hk).
  pose proof (dayInYear_table _ k Hk) as Htab.
  unfold checkDayInYear in Htab. cbv zeta in Htab.
  apply andb_prop in Htab as [Hrange _].
  unfold validDate, daysInMonth. cbn [year month day]. exact Hrange.
Qed.

Lemma prevDay_nextDay d : validDate d = true -> prevDay (nextDay d) = d.
Proof.
  destruct d as [y m d]. unfold validDate, nextDay, prevDay. cbn [year month day].
  intros Hv. repeat (apply andb_prop in Hv as [Hv ?]).
  destruct (Z.ltb_spec d (daysInMonth y m)) as [Hd|Hd]; cbn [year month day].
  - replace (1 <? d + 1) with true by (symmetry; apply Z.ltb_lt; lia).
    now replace (d + 1 - 1) with d by lia.
  - assert (d = daysInMonth y m) as -> by lia.
    destruct (Z.ltb_spec m 12) as [Hm|Hm]; cbn [year month day].
    + cbn [Z.ltb Z.compare Pos.compare Pos.compare_cont].
      replace (1 <? m + 1) with true by (symmetry; apply Z.ltb_lt; lia).
      now replace (m + 1 - 1) with m by lia.
    + assert (m = 12) as -> by lia.
      cbn [Z.ltb Z.compare Pos.compare Pos.compare_cont].
      replace (y + 1 - 1) with y by lia.
      unfold daysInMonth. now destruct (isLeapYear y).
Qed.

Lemma civilFromDay_prev n : civilFromDay (n - 1) = prevDay (civilFromDay n).
Proof.
  replace n with (n - 1 + 1) at 2 by lia.
  rewrite civilFromDay_next, prevDay_nextDay; [reflexivity|].
  apply civilFromDay_valid.
Qed.

Lemma civilFromDay_makeDay d :
  validDate d = true ->
  civilFromDay (makeDay (year d) (month d) (day d)) = d.
Proof.
  destruct d as [y m d]. unfold validDate, daysInMonth. cbn [year month day].
  intros Hv. repeat (apply andb_prop in Hv as [Hv ?]).
  set (leap := isLeapYear y) in *.
  assert (Hd31 : monthLength leap m <= 31).
  { unfold monthLength. repeat destruct (_ =? _); destruct leap; cbn; lia. }
  pose proof (monthDay_table leap m d) as Htab.
  unfold checkMonthDay in Htab. cbv zeta in Htab.
  replace (d <=? monthLength leap m) with true in Htab by (symmetry; assumption).
  cbn [negb orb] in Htab. specialize (Htab ltac:(lia) ltac:(lia)).
  apply andb_prop in Htab as [Hk Hm]. apply andb_prop in Hk as [Hk0 Hk1].
  unfold makeDay. fold leap.
  replace (dayFromYear y + daysBeforeMonth leap m + d - 1)
    with (dayFromYear y + (daysBeforeMonth leap m + d - 1)) by lia.
  rewrite civilFromDay_in_year by (fold leap; lia). fold leap.
  apply Z.eqb_eq in Hm. rewrite Hm. f_equal. lia.
Qed.

Lemma civilFromDay_iter_next n j :
  civilFromDay (n + Z.of_nat j) = Nat.iter j nextDay (civilFromDay n).
Proof.
  induction j as [|j IH]; [now replace (n + Z.of_nat 0) with n by lia|].
  rewrite Nat.iter_succ, <- IH, <- civilFromDay_next. f_equal. lia.
Qed.

Lemma civilFromDay_iter_prev n j :
  civilFromDay (n - Z.of_nat j) = Nat.iter j prevDay (civilFromDay n).
Proof.
  induction j as [|j IH]; [now replace (n - Z.of_nat 0) with n by lia|].
  rewrite Nat.iter_succ, <- IH, <- civilFromDay_prev. f_equal. lia.
Qed.

(** The date [offset] days away is the date of the day number
    [offset] days away. *)
Lemma civilFromDay_shift n offset :
  civilFromDay (n + offset) = shiftDate (civilFromDay n) offset.
Proof.
  unfold shiftDate. destruct (Z.leb_spec 0 offset) as [Hpos|Hneg].
  - rewrite <- civilFromDay_iter_next. f_equal. lia.
  - rewrite <- civilFromDay_iter_prev. f_equal. lia.
Qed.

Lemma shiftDate_makeDay d offset :
  validDate d = true ->
  civilFromDay (makeDay (year d) (month d) (day d) + offset) = shiftDate d offset.
Proof. intros Hv. now rewrite civilFromDay_shift, civilFromDay_makeDay. Qed.

Lemma shiftDate_year_positive d offset :
  validDate d = true -> 1 < year d -> -365 <= offset ->
  0 < year (shiftDate d offset).
Proof.
  intros Hv Hy Hoff. rewrite <- (shiftDate_makeDay d offset Hv).
  unfold civilFromDay. cbn [year].
  pose proof (yearFromDay_bounds (makeDay (year d) (month d) (day d) + offset)) as Hb.
  destruct (Z.lt_ge_cases 0 (yearFromDay (makeDay (year d) (month d) (day d) + offset)))
    as [Hpos|Hnon]; [exact Hpos|exfalso].
  assert (Hle : dayFromYear (yearFromDay (makeDay (year d) (month d) (day d) + offset) + 1)
                <= dayFromYear 1).
  { apply Z.le_lteq.
    destruct (Z.eq_dec (yearFromDay (makeDay (year d) (month d) (day d) + offset) + 1) 1)
      as [->|Hne]; [now right|left]. apply dayFromYear_lt. lia. }
  assert (Hge : dayFromYear 2 <= dayFromYear (year d)).
  { apply Z.le_lteq. destruct (Z.eq_dec (year d) 2) as [->|Hne]; [now right|left].
    apply dayFromYear_lt. lia. }
  assert (Hmk : dayFromYear (year d) <= makeDay (year d) (month d) (day d)).
  { unfold makeDay. unfold validDate in Hv.
    repeat (apply andb_prop in Hv as [Hv ?]).
    assert (0 <= daysBeforeMonth (isLeapYear (year d)) (month d)).
    { unfold daysBeforeMonth. repeat destruct (_ <=? _); repeat destruct (_ =? _);
        destruct (isLeapYear (year d)); lia. }
    lia. }
  change (dayFromYear 2) with (dayFromYear 1 + 365) in Hge. lia.
Qed.

(** ** [generateCalendarDatepairs] *)

(** ** [generateCalendarDatepairs] *)

Lemma field4_reads_back n : 0 <= n < 10000 -> checkField4 n = true.
Proof.
  intros Hn. apply (forallFrom_spec checkField4 (Z.to_nat 10000) 0).
  - vm_compute. reflexivity.
  - rewrite Z2Nat.id; lia.
Qed.

Lemma field2_reads_back n : 0 <= n < 100 -> checkField2 n = true.
Proof.
  intros Hn. apply (forallFrom_spec checkField2 (Z.to_nat 100) 0).
  - vm_compute. reflexivity.
  - rewrite Z2Nat.id; lia.
Qed.

Lemma monthLength_le_31 leap m : monthLength leap m <= 31.
Proof.
  unfold monthLength.
  repeat match goal with |- context [if ?b then _ else _] => destruct b end; lia.
Qed.

Lemma forEachJs_append {A B : Type} (f : list B -> A -> JsResult (list B))
    (h : A -> list B) (xs : list A) : forall st,
  (forall st x, x ∈ xs -> f st x = Ok (st ++ h x)) ->
  forEachJs f xs st = Ok (st ++ flat_map h xs).
Proof.
  induction xs as [|x rest IH]; intros st Hf; cbn [forEachJs flat_map].
  - now rewrite app_nil_r.
  - rewrite Hf by (now left). cbn [bindJs].
    rewrite IH by (intros st' x' Hx'; apply Hf; now right).
    now rewrite <- app_assoc.
Qed.

Lemma makeDay_civilFromDay n :
  makeDay (year (civilFromDay n)) (month (civilFromDay n)) (day (civilFromDay n)) = n.
Proof.
  destruct (civilFromDay_decompose n) as (y & k & -> & Hk).
  rewrite (civilFromDay_in_year y k Hk). cbn [year month day]. unfold makeDay. lia.
Qed.

Lemma makeDay_shiftDate d offset :
  validDate d = true ->
  makeDay (year (shiftDate d offset)) (month (shiftDate d offset))
          (day (shiftDate d offset))
  = makeDay (year d) (month d) (day d) + offset.
Proof.
  intros Hv. rewrite <- (shiftDate_makeDay d offset Hv). apply makeDay_civilFromDay.
Qed.

Lemma shiftDate_valid d offset :
  validDate d = true -> validDate (shiftDate d offset) = true.
Proof.
  intros Hv. rewrite <- (shiftDate_makeDay d offset Hv). apply civilFromDay_valid.
Qed.

Lemma makeDay_within_year d :
  validDate d = true ->
  dayFromYear (year d) <= makeDay (year d) (month d) (day d)
  < dayFromYear (year d + 1).
Proof.
  intros Hv.
  pose proof (yearFromDay_bounds (makeDay (year d) (month d) (day d))) as Hb.
  pose proof (f_equal year (civilFromDay_makeDay d Hv)) as Hy.
  unfold civilFromDay in Hy. cbn [year] in Hy. now rewrite Hy in Hb.
Qed.

Lemma shiftDate_year_below d offset :
  validDate d = true -> year d < 9999 -> offset <= 365 ->
  year (shiftDate d offset) < 10000.
Proof.
  intros Hv Hy Hoff.
  pose proof (makeDay_within_year d Hv) as Hd.
  pose proof (makeDay_within_year _ (shiftDate_valid d offset Hv)) as Hs.
  rewrite (makeDay_shiftDate d offset Hv) in Hs.
  destruct (Z.lt_ge_cases (year (shiftDate d offset)) 10000) as [Hlt|Hge];
    [exact Hlt|exfalso].
  assert (Hstep : dayFromYear (year d + 1) + 365 <= dayFromYear (year d + 1 + 1)).
  { rewrite (dayFromYear_step (year d + 1)).
    destruct (isLeapYear (year d + 1)); cbn [yearLength]; lia. }
  assert (Hle : dayFromYear (year d + 1 + 1) <= dayFromYear (year (shiftDate d offset))).
  { destruct (Z.eq_dec (year d + 1 + 1) (year (shiftDate d offset))) as [->|Hne];
      [lia|]. apply Z.lt_le_incl, dayFromYear_lt. lia. }
  lia.
Qed.

Lemma pivot_parts d :
  isPivot d = true -> validDate d = true /\ 1 < year d < 9999.
Proof.
  unfold isPivot. intros Hp.
  apply andb_prop in Hp as [Hp Hhi]. apply andb_prop in Hp as [Hv Hlo].
  apply Z.ltb_lt in Hlo, Hhi. auto.
Qed.

Lemma shiftDate_shiftDate d a b :
  validDate d = true -> shiftDate (shiftDate d a) b = shiftDate d (b + a).
Proof.
  intros Hv. rewrite <- (shiftDate_makeDay d a Hv), <- civilFromDay_shift.
  rewrite <- (shiftDate_makeDay d (b + a) Hv). f_equal. lia.
Qed.

Lemma shiftDate_zero d : shiftDate d 0 = d.
Proof. reflexivity. Qed.

(** The day numbers of the pivots are far inside the range of time
    values. *)
Lemma makeDay_pivot_bounds d :
  isPivot d = true ->
  -800000 <= makeDay (year d) (month d) (day d) <= 3000000.
Proof.
  intros [Hv [Hlo Hhi]]%pivot_parts.
  pose proof (makeDay_within_year d Hv) as Hd.
  assert (Hfirst : dayFromYear 2 <= dayFromYear (year d)).
  { destruct (Z.eq_dec 2 (year d)) as [<-|Hne]; [lia|].
    apply Z.lt_le_incl, dayFromYear_lt. lia. }
  assert (Hlast : dayFromYear (year d + 1) <= dayFromYear 9999).
  { destruct (Z.eq_dec (year d + 1) 9999) as [->|Hne]; [lia|].
    apply Z.lt_le_incl, dayFromYear_lt. lia. }
  change (dayFromYear 2) with (-718797) in Hfirst.
  change (dayFromYear 9999) with 2932532 in Hlast. lia.
Qed.

Lemma isDigit_not_gt c : isDigit c = true -> negb (Ascii.eqb c ">") = true.
Proof. destruct c as [[] [] [] [] [] [] [] []]; vm_compute; congruence. Qed.

Lemma isoDate_avoids_gt d :
  validDate d = true -> 0 <= year d < 10000 -> avoids ">" (isoDate d) = true.
Proof.
  intros Hv Hy. unfold validDate in Hv.
  repeat (apply andb_prop in Hv as [Hv ?]).
  pose proof (monthLength_le_31 (isLeapYear (year d)) (month d)) as H31.
  unfold daysInMonth in *.
  pose proof (field4_reads_back (year d) Hy) as Hf4.
  pose proof (field2_reads_back (month d) ltac:(lia)) as Hfm.
  pose proof (field2_reads_back (day d) ltac:(lia)) as Hfd.
  unfold isoDate, checkField4, checkField2 in *.
  destruct (addLeadingZeros (year d) 4) as [|y1 [|y2 [|y3 [|y4 [|? ?]]]]];
    try discriminate Hf4.
  destruct (addLeadingZeros (month d) 2) as [|m1 [|m2 [|? ?]]]; try discriminate Hfm.
  destruct (addLeadingZeros (day d) 2) as [|d1 [|d2 [|? ?]]]; try discriminate Hfd.
  apply andb_prop in Hf4 as [Hdy _], Hfm as [Hdm _], Hfd as [Hdd _].
  cbn [forallb] in Hdy, Hdm, Hdd.
  repeat match goal with
         | Hc : (_ && _)%bool = true |- _ => apply andb_prop in Hc as [? ?]
         end.
  rewrite !append_cons, !append_empty. cbn [avoids].
  repeat match goal with
         | Hc : isDigit _ = true |- _ => rewrite (isDigit_not_gt _ Hc); clear Hc
         end.
  reflexivity.
Qed.

Lemma queryDates_pair a b :
  avoids ">" a = true -> avoids ">" b = true ->
  queryDates (a +:+ ">" +:+ b) = (Some a, Some b).
Proof.
  intros Ha Hb. unfold queryDates, split.
  rewrite append_cons, append_empty, (splitFrom_single_at ">" a b Ha).
  now rewrite (splitFrom_single_avoids ">" b Hb).
Qed.

Lemma Ok_injective {A} (a b : A) : Ok a = Ok b -> a = b.
Proof. congruence. Qed.

Lemma offsets_range (ij : Z * Z) :
  ij ∈ list_prod [-3; -2; -1; 0; 1; 2; 3] [-3; -2; -1; 0; 1; 2; 3] ->
  -3 <= ij.1 <= 3 /\ -3 <= ij.2 <= 3.
Proof.
  destruct ij as [i j]. intros Hin.
  apply list_elem_of_In, in_prod_iff in Hin as [Hi Hj].
  cbn [In] in Hi, Hj. cbn [fst snd]. lia.
Qed.

Lemma parseDateOnly_isoDate d :
  validDate d = true -> 0 <= year d < 10000 ->
  parseDateOnly (isoDate d) = Some (makeDay (year d) (month d) (day d) * msPerDay).
Proof.
  intros Hv Hy. unfold validDate in Hv.
  repeat (apply andb_prop in Hv as [Hv ?]).
  pose proof (monthLength_le_31 (isLeapYear (year d)) (month d)) as H31.
  unfold daysInMonth in *.
  pose proof (field4_reads_back (year d) Hy) as Hf4.
  pose proof (field2_reads_back (month d) ltac:(lia)) as Hfm.
  pose proof (field2_reads_back (day d) ltac:(lia)) as Hfd.
  unfold isoDate, checkField4, checkField2 in *.
  destruct (addLeadingZeros (year d) 4) as [|y1 [|y2 [|y3 [|y4 [|? ?]]]]];
    try discriminate Hf4.
  destruct (addLeadingZeros (month d) 2) as [|m1 [|m2 [|? ?]]]; try discriminate Hfm.
  destruct (addLeadingZeros (day d) 2) as [|d1 [|d2 [|? ?]]]; try discriminate Hfd.
  apply andb_prop in Hf4 as [Hdy Hvy], Hfm as [Hdm Hvm], Hfd as [Hdd Hvd].
  apply Z.eqb_eq in Hvy, Hvm, Hvd.
  cbn [forallb] in Hdy, Hdm, Hdd.
  repeat match goal with
         | Hc : (_ && _)%bool = true |- _ => apply andb_prop in Hc as [? ?]
         end.
  rewrite !append_cons, !append_empty. unfold parseDateOnly.
  cbn [forallb]. rewrite Hvy, Hvm, Hvd.
  repeat match goal with
         | Hc : isDigit _ = true |- _ => rewrite Hc; clear Hc
         end.
  cbn [andb Ascii.eqb Bool.eqb].
  repeat match goal with
         | Hc : (_ <=? _) = true |- _ => rewrite Hc; clear Hc
         end.
  cbn [andb].
  replace (day d <=? 31) with true by (symmetry; apply Z.leb_le; lia).
  reflexivity.
Qed.

Section DatepairFacts.
Context `{Platform}.

(** [new Date] reads a pivot written [YYYY-MM-DD] as midnight UTC of
    that day. *)
Lemma newDate_isoDate d :
  validDate d = true -> 0 <= year d < 10000 ->
  newDate (isoDate d) = Some (makeDay (year d) (month d) (day d) * msPerDay).
Proof.
  intros Hv Hy. unfold newDate. now rewrite parseDateOnly_isoDate.
Qed.

Lemma newDate_shifted d offset :
  isPivot d = true -> -365 <= offset <= 365 ->
  newDate (isoDate (shiftDate d offset))
  = Some ((makeDay (year d) (month d) (day d) + offset) * msPerDay).
Proof.
  intros [Hv [Hlo Hhi]]%pivot_parts Hoff.
  rewrite newDate_isoDate.
  - now rewrite makeDay_shiftDate.
  - now apply shiftDate_valid.
  - pose proof (shiftDate_year_positive d offset Hv Hlo ltac:(lia)).
    pose proof (shiftDate_year_below d offset Hv Hhi ltac:(lia)). lia.
Qed.

Lemma isoDate_shift_injective d a b :
  isPivot d = true -> -365 <= a <= 365 -> -365 <= b <= 365 ->
  isoDate (shiftDate d a) = isoDate (shiftDate d b) -> a = b.
Proof.
  intros Hp Ha Hb Heq. apply (f_equal newDate) in Heq.
  rewrite !newDate_shifted in Heq by assumption.
  injection Heq as Heq. unfold msPerDay in Heq. lia.
Qed.

Lemma shifted_pair_parts d offset :
  isPivot d = true -> -4 <= offset <= 3 ->
  avoids ">" (isoDate (shiftDate d offset)) = true /\
  is_Some (newDate (isoDate (shiftDate d offset))).
Proof.
  intros Hp Hoff. split.
  - destruct (pivot_parts _ Hp) as [Hv [Hlo Hhi]].
    apply isoDate_avoids_gt; [now apply shiftDate_valid|].
    pose proof (shiftDate_year_positive d offset Hv Hlo ltac:(lia)).
    pose proof (shiftDate_year_below d offset Hv Hhi ltac:(lia)). lia.
  - rewrite newDate_shifted by (assumption || lia). eauto.
Qed.

Lemma localShift_range t : -1 <= localShift t <= 0.
Proof. unfold localShift. destruct (LocalTZA t true <? 0); lia. Qed.

(** At midnight UTC of a day the host's calendar shows that day, or the
    day before when its local time is behind UTC. *)
Lemma localDay_midnight n :
  boundedZone ->
  localDay (n * msPerDay) = n + localShift (n * msPerDay).
Proof.
  intros Hzone. specialize (Hzone (n * msPerDay) true).
  unfold localDay, LocalTime, localShift, msPerDay in *.
  destruct (Z.ltb_spec (LocalTZA (n * 86400000) true) 0);
    Z.div_mod_to_equations; lia.
Qed.

(** [setDate] on a time value far inside the range: the local time is
    moved by whole days and taken back to UTC. *)
Lemma setDate_local t n :
  boundedZone -> -300000000000000 <= t <= 300000000000000 -> -3 <= n <= 3 ->
  setDate t (day (civilFromDay (localDay t)) + n)
  = Some (UTC (LocalTime t + n * msPerDay)).
Proof.
  intros Hzone Ht Hn. unfold setDate, localDay, UTC, LocalTime.
  pose proof (Hzone t true) as Hz1.
  set (z1 := LocalTZA t true) in *.
  pose proof (makeDay_civilFromDay ((t + z1) / msPerDay)) as Hmk.
  set (c := civilFromDay ((t + z1) / msPerDay)) in *.
  assert (Hmove : makeDay (year c) (month c) (day c + n) * msPerDay
                  + (t + z1) mod msPerDay
                  = t + z1 + n * msPerDay).
  { unfold makeDay in Hmk |- *. unfold msPerDay in *.
    Z.div_mod_to_equations. lia. }
  rewrite Hmove.
  pose proof (Hzone (t + z1 + n * msPerDay) false) as Hz2.
  set (z2 := LocalTZA (t + z1 + n * msPerDay) false) in *.
  unfold timeClip.
  replace (Z.abs (t + z1 + n * msPerDay - z2) <=? 8640000000000000) with true;
    [reflexivity|].
  symmetry. apply Z.leb_le. unfold msPerDay in *. lia.
Qed.

(** [format] on a time value whose local day is a day of the years
    1..9999. *)
Lemma formatYMD_localDay t d :
  validDate d = true -> 0 < year d < 10000 ->
  localDay t = makeDay (year d) (month d) (day d) ->
  formatYMD (Some t) = Ok (isoDate d).
Proof.
  intros Hv Hy Ht. cbn [formatYMD]. unfold localDate. rewrite Ht.
  rewrite civilFromDay_makeDay by exact Hv.
  replace (0 <? year d) with true by (symmetry; apply Z.ltb_lt; lia).
  reflexivity.
Qed.

(** What [addDays] and [format] make of a pivot: the date so many days
    from the day that the host's calendar shows at midnight UTC of the
    pivot. *)
Lemma formatYMD_addDays d offset :
  boundedZone -> keepsLocalDays (midnightUTC d) ->
  isPivot d = true -> -3 <= offset <= 3 ->
  formatYMD (addDays (newDate (isoDate d)) offset)
  = Ok (isoDate (shiftDate d (offset + localShift (midnightUTC d)))).
Proof.
  intros Hzone Hkeeps Hp Hoff.
  destruct (pivot_parts _ Hp) as [Hv [Hlo Hhi]].
  pose proof (localShift_range (midnightUTC d)) as Hs.
  pose proof (makeDay_pivot_bounds d Hp) as Hbound.
  rewrite newDate_isoDate by (assumption || lia).
  change (makeDay (year d) (month d) (day d) * msPerDay) with (midnightUTC d).
  assert (Hday : localDay (midnightUTC d)
                 = makeDay (year d) (month d) (day d) + localShift (midnightUTC d)).
  { unfold midnightUTC. now apply localDay_midnight. }
  assert (Hrange : -300000000000000 <= midnightUTC d <= 300000000000000).
  { unfold midnightUTC, msPerDay. lia. }
  set (target := shiftDate d (offset + localShift (midnightUTC d))).
  assert (Htv : validDate target = true) by (now apply shiftDate_valid).
  assert (Hty : 0 < year target < 10000).
  { split; [apply shiftDate_year_positive|apply shiftDate_year_below];
      (assumption || lia). }
  assert (Htd : makeDay (year target) (month target) (day target)
                = makeDay (year d) (month d) (day d)
                  + (offset + localShift (midnightUTC d))).
  { now apply makeDay_shiftDate. }
  unfold addDays. destruct (Z.eqb_spec offset 0) as [Hzero|Hne].
  - apply (formatYMD_localDay _ target Htv Hty). rewrite Htd, Hday. lia.
  - rewrite (setDate_local _ offset Hzone Hrange Hoff).
    apply (formatYMD_localDay _ target Htv Hty).
    rewrite (Hkeeps offset Hoff Hne), Htd, Hday. lia.
Qed.

(** On every host that keeps its days: the product of the offsets
    -3..+3 around the days that the host's calendar shows at midnight UTC
    of the pivots. *)
Lemma generateCalendarDatepairs_local departure return_ :
  boundedZone ->
  keepsLocalDays (midnightUTC departure) -> keepsLocalDays (midnightUTC return_) ->
  isPivot departure = true -> isPivot return_ = true ->
  generateCalendarDatepairs (isoDate departure) (isoDate return_)
  = Ok (datepairs_spec
          (shiftDate departure (localShift (midnightUTC departure)))
          (shiftDate return_ (localShift (midnightUTC return_)))).
Proof.
  intros Hzone Hkd Hkr Hd Hr. unfold generateCalendarDatepairs, datepairs_spec.
  destruct (pivot_parts _ Hd) as [Hvd _], (pivot_parts _ Hr) as [Hvr _].
  set (sd := localShift (midnightUTC departure)).
  set (sr := localShift (midnightUTC return_)).
  change dayOffsets with [-3; -2; -1; 0; 1; 2; 3].
  rewrite (forEachJs_append _
             (fun i => map (fun j => isoDate (shiftDate (shiftDate departure sd) i)
                                     +:+ ">" +:+
                                     isoDate (shiftDate (shiftDate return_ sr) j))
                           [-3; -2; -1; 0; 1; 2; 3])); [reflexivity|].
  intros st i Hi.
  assert (Hirange : -3 <= i <= 3).
  { repeat (apply elem_of_cons in Hi as [->|Hi]; [lia|]). now apply elem_of_nil in Hi. }
  rewrite (forEachJs_append _
             (fun j => [isoDate (shiftDate (shiftDate departure sd) i)
                        +:+ ">" +:+
                        isoDate (shiftDate (shiftDate return_ sr) j)])).
  - reflexivity.
  - intros st' j Hj.
    assert (Hjrange : -3 <= j <= 3).
    { repeat (apply elem_of_cons in Hj as [->|Hj]; [lia|]). now apply elem_of_nil in Hj. }
    rewrite !formatYMD_addDays by assumption. cbn [bindJs].
    now rewrite !shiftDate_shiftDate by assumption.
Qed.

(** The generated pairs, each written with its two dates' distances
    from the pivots. *)
Lemma generateCalendarDatepairs_offsets departure return_ :
  boundedZone ->
  keepsLocalDays (midnightUTC departure) -> keepsLocalDays (midnightUTC return_) ->
  isPivot departure = true -> isPivot return_ = true ->
  generateCalendarDatepairs (isoDate departure) (isoDate return_)
  = Ok ((fun ij : Z * Z =>
           isoDate (shiftDate departure (ij.1 + localShift (midnightUTC departure)))
           +:+ ">" +:+
           isoDate (shiftDate return_ (ij.2 + localShift (midnightUTC return_))))
        <$> list_prod [-3; -2; -1; 0; 1; 2; 3] [-3; -2; -1; 0; 1; 2; 3]).
Proof.
  intros Hzone Hkd Hkr Hd Hr. rewrite generateCalendarDatepairs_local by assumption.
  destruct (pivot_parts _ Hd) as [Hvd _], (pivot_parts _ Hr) as [Hvr _].
  unfold datepairs_spec. cbn [list_prod flat_map map app fmap list_fmap fst snd].
  now rewrite !shiftDate_shiftDate by assumption.
Qed.

Lemma generated_pair_parts d (i : Z) t :
  isPivot d = true -> -3 <= i <= 3 ->
  avoids ">" (isoDate (shiftDate d (i + localShift t))) = true /\
  is_Some (newDate (isoDate (shiftDate d (i + localShift t)))).
Proof.
  intros Hp Hi. pose proof (localShift_range t) as Hs.
  apply shifted_pair_parts; [assumption|lia].
Qed.

Lemma generated_pairs_distinct departure return_ td tr :
  isPivot departure = true -> isPivot return_ = true ->
  NoDup ((fun ij : Z * Z =>
            isoDate (shiftDate departure (ij.1 + localShift td)) +:+ ">"
            +:+ isoDate (shiftDate return_ (ij.2 + localShift tr)))
         <$> list_prod [-3; -2; -1; 0; 1; 2; 3] [-3; -2; -1; 0; 1; 2; 3]).
Proof.
  intros Hd Hr.
  pose proof (localShift_range td) as Hsd. pose proof (localShift_range tr) as Hsr.
  apply NoDup_fmap_2_strong.
  - intros ij ij' [Hi Hj]%offsets_range [Hi' Hj']%offsets_range Heq.
    apply (f_equal queryDates) in Heq.
    destruct (generated_pair_parts departure ij.1 td Hd Hi) as [Ha _].
    destruct (generated_pair_parts return_ ij.2 tr Hr Hj) as [Hb _].
    destruct (generated_pair_parts departure ij'.1 td Hd Hi') as [Ha' _].
    destruct (generated_pair_parts return_ ij'.2 tr Hr Hj') as [Hb' _].
    rewrite !queryDates_pair in Heq by assumption.
    injection Heq as Hdep Hret.
    apply isoDate_shift_injective in Hdep; [|assumption|lia|lia].
    apply isoDate_shift_injective in Hret; [|assumption|lia|lia].
    destruct ij, ij'. cbn [fst snd] in *. f_equal; lia.
  - apply (bool_decide_unpack _). vm_compute. exact I.
Qed.

(** The pivot pair is among the generated pairs. *)
Lemma generated_pairs_pivot departure return_ td tr :
  isoDate departure +:+ ">" +:+ isoDate return_
  ∈ (fun ij : Z * Z =>
       isoDate (shiftDate departure (ij.1 + localShift td)) +:+ ">"
       +:+ isoDate (shiftDate return_ (ij.2 + localShift tr)))
    <$> list_prod [-3; -2; -1; 0; 1; 2; 3] [-3; -2; -1; 0; 1; 2; 3].
Proof.
  pose proof (localShift_range td) as Hsd. pose proof (localShift_range tr) as Hsr.
  apply list_elem_of_fmap. exists (- localShift td, - localShift tr).
  cbn [fst snd]. split.
  - replace (- localShift td + localShift td) with 0 by lia.
    replace (- localShift tr + localShift tr) with 0 by lia.
    now rewrite !shiftDate_zero.
  - apply list_elem_of_In, in_prod_iff. unfold localShift.
    destruct (LocalTZA td true <? 0), (LocalTZA tr true <? 0); cbn; tauto.
Qed.

(** The product around other days than the pivots is another list. *)
Lemma datepairs_spec_shifted departure return_ sd sr :
  isPivot departure = true -> isPivot return_ = true ->
  -1 <= sd <= 0 -> -1 <= sr <= 0 ->
  datepairs_spec (shiftDate departure sd) (shiftDate return_ sr)
  = datepairs_spec departure return_ ->
  sd = 0 /\ sr = 0.
Proof.
  intros Hd Hr Hsd Hsr Heq.
  destruct (pivot_parts _ Hd) as [Hvd _], (pivot_parts _ Hr) as [Hvr _].
  apply (f_equal head) in Heq. unfold datepairs_spec in Heq.
  cbn [flat_map map app head] in Heq. injection Heq as Heq.
  rewrite !shiftDate_shiftDate in Heq by assumption.
  apply (f_equal queryDates) in Heq.
  destruct (shifted_pair_parts departure (-3 + sd) Hd ltac:(lia)) as [Ha _].
  destruct (shifted_pair_parts return_ (-3 + sr) Hr ltac:(lia)) as [Hb _].
  destruct (shifted_pair_parts departure (-3) Hd ltac:(lia)) as [Ha' _].
  destruct (shifted_pair_parts return_ (-3) Hr ltac:(lia)) as [Hb' _].
  rewrite (queryDates_pair _ _ Ha Hb), (queryDates_pair _ _ Ha' Hb') in Heq.
  injection Heq as Hdep Hret.
  apply isoDate_shift_injective in Hdep; [|assumption|lia|lia].
  apply isoDate_shift_injective in Hret; [|assumption|lia|lia].
  lia.
Qed.

End DatepairFacts.

(** A host at a fixed offset of less than a day from UTC keeps its zone
    within bounds and drops no day. *)
Lemma hostWith_boundedZone decode offset :
  -1440 < offset < 1440 -> @boundedZone (hostWith decode offset).
Proof.
  intros Hoff t isUTC. cbn. unfold msPerDay, msPerMinute. lia.
Qed.

Lemma hostWith_keepsLocalDays decode offset t :
  @keepsLocalDays (hostWith decode offset) t.
Proof.
  intros n _ _. unfold localDay, UTC, LocalTime. cbn. unfold msPerDay, msPerMinute.
  Z.div_mod_to_equations. lia.
Qed.

(** C8, on the code.  [new Date] reads a pivot as midnight UTC, while
    [addDays] and [format] work on the host's local calendar.  On every
    host that keeps its days, for every pivot departure and return date:
    the generated list is the 7x7 product of the day offsets -3..+3
    around the days that the host's calendar shows at midnight UTC of
    the pivots; it has 49 pairwise distinct pairs, the pivot pair among
    them; and it is the product around the pivots themselves, which the
    specification asks for, exactly when the host's local time is not
    behind UTC at those two times.  West of Greenwich the offsets are
    taken around the day before each pivot. *)
Theorem generateCalendarDatepairs_product_iff `{Platform}
    (departure return_ : CivilDate) :
  boundedZone ->
  keepsLocalDays (midnightUTC departure) -> keepsLocalDays (midnightUTC return_) ->
  isPivot departure = true -> isPivot return_ = true ->
  exists datepairs,
    generateCalendarDatepairs (isoDate departure) (isoDate return_) = Ok datepairs /\
    datepairs = datepairs_spec
                  (shiftDate departure (localShift (midnightUTC departure)))
                  (shiftDate return_ (localShift (midnightUTC return_))) /\
    length datepairs = 49%nat /\
    NoDup datepairs /\
    isoDate departure +:+ ">" +:+ isoDate return_ ∈ datepairs /\
    (datepairs = datepairs_spec departure return_ <->
     0 <= LocalTZA (midnightUTC departure) true /\
     0 <= LocalTZA (midnightUTC return_) true).
Proof.
  intros Hzone Hkd Hkr Hd Hr.
  pose proof (generateCalendarDatepairs_local departure return_ Hzone Hkd Hkr Hd Hr)
    as Hlocal.
  pose proof (generateCalendarDatepairs_offsets departure return_ Hzone Hkd Hkr Hd Hr)
    as Hoffsets.
  rewrite Hlocal in Hoffsets. apply Ok_injective in Hoffsets.
  eexists. split; [exact Hlocal|]. split; [reflexivity|].
  split; [reflexivity|]. split; [|split].
  - rewrite Hoffsets. now apply generated_pairs_distinct.
  - rewrite Hoffsets. apply generated_pairs_pivot.
  - split.
    + intros Heq.
      apply datepairs_spec_shifted in Heq;
        [|assumption|assumption|apply localShift_range|apply localShift_range].
      unfold localShift in Heq.
      destruct (Z.ltb_spec (LocalTZA (midnightUTC departure) true) 0),
        (Z.ltb_spec (LocalTZA (midnightUTC return_) true) 0); lia.
    + intros [Hde Hre]. unfold localShift.
      replace (LocalTZA (midnightUTC departure) true <? 0) with false
        by (symmetry; apply Z.ltb_ge; lia).
      replace (LocalTZA (midnightUTC return_) true <? 0) with false
        by (symmetry; apply Z.ltb_ge; lia).
      now rewrite !shiftDate_zero.
Qed.

Lemma generateCalendarDatepairs_product_iff_witness :
  exists datepairs,
    @generateCalendarDatepairs westHost "2024-06-10" "2024-06-17" = Ok datepairs /\
    datepairs = datepairs_spec (june 9) (june 16) /\
    length datepairs = 49%nat /\
    NoDup datepairs /\
    "2024-06-10>2024-06-17" ∈ datepairs /\
    datepairs <> datepairs_spec (june 10) (june 17).
Proof.
  destruct (@generateCalendarDatepairs_product_iff westHost (june 10) (june 17))
    as (datepairs & Hgen & Hlist & Hlen & Hnodup & Hpivot & Hiff).
  - apply hostWith_boundedZone. lia.
  - apply hostWith_keepsLocalDays.
  - apply hostWith_keepsLocalDays.
  - reflexivity.
  - reflexivity.
  - exists datepairs. repeat split; try assumption.
    intros Heq. apply Hiff in Heq as [Hwest _]. now apply Hwest.
Defined.

(** C8, as the specification states it, fails on a host west of
    Greenwich: midnight UTC of the pivot is still the evening before
    there, and the offsets are taken around that day. *)
Lemma generateCalendarDatepairs_west_of_UTC :
  @generateCalendarDatepairs westHost "2024-06-10" "2024-06-17"
  = Ok (datepairs_spec (june 9) (june 16)) /\
  datepairs_spec (june 9) (june 16) <> datepairs_spec (june 10) (june 17).
Proof.
  split; [vm_compute; reflexivity|].
  intros Heq. apply (f_equal head) in Heq. vm_compute in Heq. discriminate Heq.
Qed.

(** A pivot written with a time of day is a date like any other on a
    host that reads it: the offsets are taken around the day that the
    host's calendar shows at that time. *)
Example generateCalendarDatepairs_date_time :
  exists datepairs,
    @generateCalendarDatepairs dateTimeHost "2024-06-10T12:00:00Z" "2024-06-17"
    = Ok datepairs /\
    length datepairs = 49%nat /\
    head datepairs = Some "2024-06-07>2024-06-14" /\
    "2024-06-10>2024-06-17" ∈ datepairs.
Proof.
  eexists. split; [vm_compute; reflexivity|].
  split; [reflexivity|]. split; [reflexivity|].
  apply (bool_decide_unpack _). vm_compute. exact I.
Qed.

(** A zone that drops a day is outside these results: in Pacific/Apia,
    which had no 30 December 2011, the day before 31 December is asked
    for as 30 December and lands on 31 December again, so the list for
    the pivots 2012-01-01 and 2012-01-10 names six departure dates and
    holds 42 distinct pairs. *)
Example generateCalendarDatepairs_dropped_day :
  exists datepairs,
    @generateCalendarDatepairs apiaHost "2012-01-01" "2012-01-10" = Ok datepairs /\
    length datepairs = 49%nat /\
    length (remove_dups datepairs) = 42%nat /\
    ("2011-12-30>2012-01-10" ∉ datepairs) /\
    ~ (@keepsLocalDays apiaHost
         (midnightUTC {| year := 2012; month := 1; day := 1 |})).
Proof.
  eexists. split; [vm_compute; reflexivity|].
  split; [reflexivity|]. split; [vm_compute; reflexivity|]. split.
  - apply (bool_decide_unpack _). vm_compute. exact I.
  - intros Hkeeps. specialize (Hkeeps (-2) ltac:(lia) ltac:(lia)).
    vm_compute in Hkeeps. discriminate Hkeeps.
Qed.

End CalendarFacts.

(** * Part III: further properties of the code *)

(** ** [formatString], again *)

Lemma separator_capitalOf c :
  Ascii.eqb c " " || Ascii.eqb c "-" = false ->
  Ascii.eqb (capitalOf c) " " || Ascii.eqb (capitalOf c) "-" = false.
Proof. destruct c as [[] [] [] [] [] [] [] []]; vm_compute; congruence. Qed.

Lemma separator_smallOf c :
  Ascii.eqb c " " || Ascii.eqb c "-" = false ->
  Ascii.eqb (smallOf c) " " || Ascii.eqb (smallOf c) "-" = false.
Proof. destruct c as [[] [] [] [] [] [] [] []]; vm_compute; congruence. Qed.

Lemma capitalOf_idempotent c : capitalOf (capitalOf c) = capitalOf c.
Proof. destruct c as [[] [] [] [] [] [] [] []]; reflexivity. Qed.

Lemma smallOf_idempotent c : smallOf (smallOf c) = smallOf c.
Proof. destruct c as [[] [] [] [] [] [] [] []]; reflexivity. Qed.

Lemma capitalOf_ascii c : isAsciiChar c = true -> isAsciiChar (capitalOf c) = true.
Proof. destruct c as [[] [] [] [] [] [] [] []]; vm_compute; congruence. Qed.

Lemma smallOf_ascii c : isAsciiChar c = true -> isAsciiChar (smallOf c) = true.
Proof. destruct c as [[] [] [] [] [] [] [] []]; vm_compute; congruence. Qed.

Lemma titlePass_idempotent s : forall opening,
  titlePass opening (titlePass opening s) = titlePass opening s.
Proof.
  induction s as [|c r IH]; intros opening; [reflexivity|].
  cbn [titlePass]. destruct (Ascii.eqb c " " || Ascii.eqb c "-") eqn:Hc.
  - cbn [titlePass]. change (Ascii.eqb " " " " || Ascii.eqb " " "-") with true.
    cbn iota. now rewrite IH.
  - destruct opening; cbn [titlePass].
    + rewrite (separator_capitalOf c Hc), capitalOf_idempotent. now rewrite IH.
    + rewrite (separator_smallOf c Hc), smallOf_idempotent. now rewrite IH.
Qed.

Lemma titlePass_length opening s :
  String.length (titlePass opening s) = String.length s.
Proof.
  revert opening. induction s as [|c r IH]; intros opening; [reflexivity|].
  cbn [titlePass]. destruct (Ascii.eqb c " " || Ascii.eqb c "-");
    cbn [String.length]; now rewrite IH.
Qed.

Lemma titlePass_ascii opening s :
  isAscii s = true -> isAscii (titlePass opening s) = true.
Proof.
  revert opening. induction s as [|c r IH]; intros opening; [reflexivity|].
  cbn [isAscii titlePass]. intros [Hc Hr]%andb_prop.
  destruct (Ascii.eqb c " " || Ascii.eqb c "-"); cbn [isAscii].
  - now rewrite IH.
  - rewrite (IH _ Hr), andb_true_r.
    destruct opening; [now apply capitalOf_ascii|now apply smallOf_ascii].
Qed.

(** X1.  On ASCII text [formatString] is idempotent and keeps the length
    of its input: formatting a formatted name changes nothing, no
    character is added or dropped (each separator is replaced by one
    space), and the result is ASCII text again. *)
Theorem formatString_idempotent_length `{Platform} (s : string) :
  isAscii s = true ->
  formatString (formatString s) = formatString s /\
  String.length (formatString s) = String.length s /\
  isAscii (formatString s) = true.
Proof.
  intros Hs. rewrite (formatString_titlePass s Hs).
  rewrite (formatString_titlePass _ (titlePass_ascii true s Hs)).
  split; [apply titlePass_idempotent|].
  split; [apply titlePass_length|now apply titlePass_ascii].
Qed.

Lemma formatString_idempotent_length_witness :
  @formatString sampleHost (@formatString sampleHost "new-york city")
  = @formatString sampleHost "new-york city" /\
  String.length (@formatString sampleHost "new-york city") = 13%nat /\
  isAscii (@formatString sampleHost "new-york city") = true.
Proof.
  apply (@formatString_idempotent_length sampleHost "new-york city"). reflexivity.
Defined.

(** ** [formatDuration], outside its format *)

Lemma split_without_separator_PT s :
  includes "PT" s = false -> split "PT" s = [s].
Proof.
  unfold split. induction s as [|c r IH]; [reflexivity|].
  rewrite includes_cons. intros [Hhere Hrest]%orb_false_elim.
  now rewrite splitFrom_cons, Hhere, (IH Hrest).
Qed.

(** X2.  Error and edge behaviour of [formatDuration]: a string with
    neither "H" nor "M" is rendered "0 h"; a string that has an "H" or
    an "M" but no "PT" makes it throw a [TypeError]; and a [TypeError] is
    the only exception it ever throws. *)
Theorem formatDuration_edges (str : string) :
  (includes "H" str = false -> includes "M" str = false ->
     formatDuration str = Ok "0 h") /\
  (includes "H" str || includes "M" str = true -> includes "PT" str = false ->
     formatDuration str = Throw TypeError) /\
  (forall e, formatDuration str = Throw e -> e = TypeError).
Proof.
  split; [|split].
  - intros HH HM. unfold formatDuration. now rewrite HH, HM.
  - intros Hsome Hpt. unfold formatDuration.
    rewrite (split_without_separator_PT str Hpt).
    destruct (includes "H" str), (includes "M" str); try discriminate Hsome;
      reflexivity.
  - intros e. unfold formatDuration.
    destruct (includes "H" str), (includes "M" str); cbn [andb];
      destruct (split "PT" str !! 1%nat) as [pt|]; cbn [defined bindJs];
      try (destruct (split "H" pt !! 1%nat); cbn [defined bindJs]);
      congruence.
Qed.

Lemma formatDuration_edges_witness :
  formatDuration "PT30S" = Ok "0 h" /\ formatDuration "2H30M" = Throw TypeError.
Proof.
  split.
  - apply (proj1 (formatDuration_edges "PT30S")); reflexivity.
  - apply (proj1 (proj2 (formatDuration_edges "2H30M"))); reflexivity.
Defined.

(** ** The stop label *)

Lemma lastChar_append a c b : lastChar (a +:+ String c b) = lastChar (String c b).
Proof.
  induction a as [|x a IH]; [reflexivity|].
  rewrite append_cons. cbn [lastChar]. rewrite IH.
  destruct (a +:+ String c b) eqn:Happ; [|reflexivity].
  destruct a; discriminate Happ.
Qed.

(** X3.  The stop label of an itinerary: it is "Nonstop" exactly for one
    segment; for any other count it is the count less one, then " stop",
    then "s" from three segments on; so the label ends in the plural "s"
    exactly from three segments (two stops) on. *)
Theorem stopsLabel_shape (nbSegments : nat) :
  (stopsLabel nbSegments = "Nonstop" <-> nbSegments = 1%nat) /\
  (nbSegments <> 1%nat ->
     stopsLabel nbSegments
     = showZ (Z.of_nat nbSegments - 1) +:+ " stop"
       +:+ (if (3 <=? nbSegments)%nat then "s" else "")) /\
  (lastChar (stopsLabel nbSegments) = Some "s"%char <-> (3 <= nbSegments)%nat).
Proof.
  assert (Hother : nbSegments <> 1%nat ->
            stopsLabel nbSegments
            = showZ (Z.of_nat nbSegments - 1) +:+ " stop"
              +:+ (if (3 <=? nbSegments)%nat then "s" else "")).
  { intros Hn. unfold stopsLabel.
    destruct (Nat.eqb_spec nbSegments 1); [contradiction|reflexivity]. }
  split; [|split; [exact Hother|]].
  - split; [|intros ->; reflexivity].
    intros Hlabel. destruct (Nat.eq_dec nbSegments 1) as [Heq|Hne]; [exact Heq|].
    exfalso. rewrite (Hother Hne) in Hlabel.
    assert (Hspace : includes " " "Nonstop" = true).
    { rewrite <- Hlabel. apply includes_app_r, includes_here. }
    discriminate Hspace.
  - destruct (Nat.eq_dec nbSegments 1) as [->|Hne].
    + split; [discriminate|lia].
    + rewrite (Hother Hne).
      change (" stop" +:+ (if (3 <=? nbSegments)%nat then "s" else ""))
        with (String " " ("stop" +:+ (if (3 <=? nbSegments)%nat then "s" else ""))).
      rewrite lastChar_append.
      destruct (Nat.leb_spec 3 nbSegments) as [Hge|Hlt].
      * split; [intros _; exact Hge|reflexivity].
      * split; [discriminate|lia].
Qed.

(** ** [sameOutbound] as a relation *)

(** X4.  [sameOutbound] is reflexive and transitive: an itinerary always
    matches itself, and matches chain. *)
Theorem sameOutbound_preorder :
  (forall it, sameOutbound it it = true) /\
  (forall it1 it2 it3,
     sameOutbound it1 it2 = true -> sameOutbound it2 it3 = true ->
     sameOutbound it1 it3 = true).
Proof.
  split.
  - intros it. apply sameOutbound_spec. split; [reflexivity|auto].
  - intros it1 it2 it3 [Hlen12 Hin12]%sameOutbound_spec [Hlen23 Hin23]%sameOutbound_spec.
    apply sameOutbound_spec. split; [congruence|auto].
Qed.

(** ** [getSearchSuggestions] and its handler *)

Lemma mapIndexed_ok {A B : Type} (f : nat -> A -> JsResult B) (g : A -> B) xs :
  forall i, (forall j x, x ∈ xs -> f j x = Ok (g x)) ->
  mapIndexed f i xs = Ok (map g xs).
Proof.
  induction xs as [|x rest IH]; intros i Hf; [reflexivity|].
  cbn [mapIndexed map]. rewrite Hf by (now left). cbn [bindJs].
  rewrite IH by (intros j y Hy; apply Hf; now right). reflexivity.
Qed.

Lemma mapIndexed_throws {A B : Type} (f : nat -> A -> JsResult B) xs :
  forall i e, mapIndexed f i xs = Throw e -> exists j x, x ∈ xs /\ f j x = Throw e.
Proof.
  induction xs as [|x rest IH]; intros i e; cbn [mapIndexed]; [discriminate|].
  destruct (f i x) as [y|e'] eqn:Hfx; cbn [bindJs].
  - destruct (mapIndexed f (S i) rest) as [ys|e''] eqn:Hrest; cbn [bindJs];
      [discriminate|].
    intros [= ->]. destruct (IH _ _ Hrest) as (j & x' & Hin & Hthrow).
    exists j, x'. split; [now right|exact Hthrow].
  - intros [= ->]. exists i, x. split; [now left|exact Hfx].
Qed.

Section SuggestionFacts.
Context `{Platform}.

Lemma suggestionOf_cases entry :
  suggestionOf entry
  = if hasNames entry then Ok (suggestionFor entry) else Throw TypeError.
Proof.
  unfold suggestionOf, hasNames, suggestionFor, formatStringOf.
  destruct (loc_name entry), (loc_cityName entry); reflexivity.
Qed.

(** X5.  The handler of [/search-suggestions] answers 200 with one
    suggestion per upstream record, in upstream order, when the location
    search is fulfilled and every record has a name and a city name; it
    answers 500 with the upstream error when the search is rejected, and
    500 with a [TypeError] when some record lacks one of the two names
    (no partial list is sent). *)
Theorem handleSearchSuggestions_cases :
  (forall entries,
     forallb hasNames entries = true ->
     handleSearchSuggestions (Fulfilled entries)
     = {| status := 200%Z; body := SuggestionsValue (map suggestionFor entries) |}) /\
  (forall entries,
     forallb hasNames entries = false ->
     handleSearchSuggestions (Fulfilled entries)
     = {| status := 500%Z; body := SuggestionsError TypeError |}) /\
  (forall e,
     handleSearchSuggestions (Rejected e)
     = {| status := 500%Z; body := SuggestionsError e |}).
Proof.
  split; [|split]; [| |reflexivity].
  - intros entries Hall. unfold handleSearchSuggestions, getSearchSuggestions, then_.
    rewrite (mapIndexed_ok _ suggestionFor); [reflexivity|].
    intros _ entry Hin. rewrite suggestionOf_cases.
    rewrite forallb_forall in Hall. now rewrite Hall by (now apply list_elem_of_In).
  - intros entries Hsome. unfold handleSearchSuggestions, getSearchSuggestions, then_.
    destruct (mapIndexed (fun _ => suggestionOf) 0 entries) as [ys|e] eqn:Hmap.
    + exfalso.
      assert (Hall : forallb hasNames entries = true); [|congruence].
      clear Hsome. revert ys Hmap. generalize 0%nat.
      induction entries as [|entry rest IH]; intros i ys; [reflexivity|].
      cbn [mapIndexed forallb]. rewrite suggestionOf_cases.
      destruct (hasNames entry); cbn [bindJs andb]; [|discriminate].
      destruct (mapIndexed (fun _ => suggestionOf) (S i) rest) as [zs|] eqn:Hrest;
        cbn [bindJs]; [|discriminate].
      intros _. now apply (IH (S i) zs).
    + destruct (mapIndexed_throws _ _ _ _ Hmap) as (j & entry & _ & Hthrow).
      rewrite suggestionOf_cases in Hthrow.
      destruct (hasNames entry); [discriminate|]. now injection Hthrow as <-.
Qed.

End SuggestionFacts.

Lemma handleSearchSuggestions_cases_witness :
  @handleSearchSuggestions sampleHost
    (Fulfilled [ {| loc_iataCode := "JFK"; loc_name := Some "JOHN F KENNEDY INTL";
                    loc_cityName := Some "NEW YORK" |} ])
  = {| status := 200%Z;
       body := SuggestionsValue
                 [ {| iataCode := "JFK"; name := "John F Kennedy Intl";
                      cityName := "New York" |} ] |} /\
  @handleSearchSuggestions sampleHost
    (Fulfilled [ {| loc_iataCode := "JFK"; loc_name := Some "JOHN F KENNEDY INTL";
                    loc_cityName := None |} ])
  = {| status := 500%Z; body := SuggestionsError TypeError |}.
Proof.
  split.
  - apply (proj1 (@handleSearchSuggestions_cases sampleHost)). reflexivity.
  - apply (proj1 (proj2 (@handleSearchSuggestions_cases sampleHost))). reflexivity.
Defined.

(** ** The itinerary callback of [getFlightOffers] *)

Lemma mapIndexed_inv {A B : Type} (f : nat -> A -> JsResult B) xs :
  forall i ys, mapIndexed f i xs = Ok ys ->
  length ys = length xs /\
  forall k x y, xs !! k = Some x -> ys !! k = Some y -> f (i + k)%nat x = Ok y.
Proof.
  induction xs as [|x rest IH]; intros i ys; cbn [mapIndexed].
  - intros [= <-]. split; [reflexivity|]. intros k x y Hx. discriminate Hx.
  - destruct (f i x) as [y0|] eqn:Hfx; cbn [bindJs]; [|discriminate].
    destruct (mapIndexed f (S i) rest) as [ys0|] eqn:Hrest; cbn [bindJs];
      [|discriminate].
    intros [= <-]. destruct (IH _ _ Hrest) as [Hlen Hat].
    split; [cbn [length]; now rewrite Hlen|].
    intros [|k] x' y'; cbn [lookup list_lookup].
    + intros [= <-] [= <-]. now rewrite Nat.add_0_r.
    + intros Hx Hy. rewrite Nat.add_succ_r. now apply Hat.
Qed.

Ltac bind_inversion H :=
  repeat match type of H with
         | bindJs ?r _ = Ok _ =>
             let E := fresh "Hstep" in
             destruct r eqn:E; cbn [bindJs] in H; [|discriminate H]
         end.

Section ItineraryFacts.
Context `{Platform}.

Lemma processSegment_inv response offer itinerary i segment sd :
  processSegment response offer itinerary i segment = Ok sd ->
  carrierCode sd = segmentCarrier segment /\
  (exists full, dict_carriers response !! segmentCarrier segment = Some full /\
                carrierName sd = formatString full) /\
  (exists model, dict_aircraft response !! seg_aircraftCode segment = Some model /\
                 sd_aircraft sd = formatString model) /\
  formatDuration (seg_duration segment) = Ok (sd_duration sd) /\
  sd_origin sd = seg_departure_iataCode segment /\
  sd_destination sd = seg_arrival_iataCode segment /\
  sd_flightNumber sd = seg_number segment /\
  (sd_stopDuration sd = None <-> it_segments itinerary !! S i = None).
Proof.
  unfold processSegment. intros Hok. bind_inversion Hok.
  injection Hok as <-. cbn [carrierCode carrierName sd_aircraft sd_duration
    sd_origin sd_destination sd_flightNumber sd_stopDuration].
  unfold formatStringOf in *.
  destruct (dict_carriers response !! segmentCarrier segment) as [full|];
    [|discriminate].
  destruct (dict_aircraft response !! seg_aircraftCode segment) as [model|];
    [|discriminate].
  cbn [defined bindJs] in *.
  repeat match goal with Hs : Ok _ = Ok _ |- _ => injection Hs as <- end.
  repeat split; eauto.
  - destruct (it_segments itinerary !! S i); [discriminate|reflexivity].
  - intros ->. reflexivity.
Qed.

(** X6.  When the itinerary callback succeeds, the itinerary it builds
    has one processed segment per upstream segment, in order; each one
    carries the operating (else marketing) carrier code, the title-cased
    name that the carriers dictionary gives for that code (so the code is
    in the dictionary), the airports and the flight number of its
    segment; only the last segment has no stop duration; the label is the
    stop label of the segment count; and no price or offer id is set
    yet. *)
Theorem processItinerary_shape response offer itinerary itineraryData :
  processItinerary response offer itinerary = Ok itineraryData ->
  length (segments itineraryData) = length (it_segments itinerary) /\
  formatDuration (it_duration itinerary) = Ok (id_duration itineraryData) /\
  id_stops itineraryData = stopsLabel (length (it_segments itinerary)) /\
  id_priceFormatted itineraryData = None /\
  id_offerId itineraryData = None /\
  (forall i segment sd,
     it_segments itinerary !! i = Some segment ->
     segments itineraryData !! i = Some sd ->
     carrierCode sd = segmentCarrier segment /\
     (exists full, dict_carriers response !! segmentCarrier segment = Some full /\
                   carrierName sd = formatString full) /\
     sd_origin sd = seg_departure_iataCode segment /\
     sd_destination sd = seg_arrival_iataCode segment /\
     sd_flightNumber sd = seg_number segment /\
     (sd_stopDuration sd = None <-> S i = length (it_segments itinerary))).
Proof.
  unfold processItinerary. intros Hok. bind_inversion Hok.
  injection Hok as <-. cbn [segments id_duration id_stops id_priceFormatted id_offerId].
  match goal with Hm : mapIndexed _ _ _ = Ok _ |- _ =>
    destruct (mapIndexed_inv _ _ _ _ Hm) as [Hlen Hat] end.
  split; [exact Hlen|]. do 4 (split; [reflexivity|]).
  intros i segment sd Hseg Hsd.
  pose proof (processSegment_inv _ _ _ _ _ _ (Hat i segment sd Hseg Hsd))
    as (Hcode & Hname & _ & _ & Horigin & Hdest & Hnum & Hstop).
  pose proof (lookup_lt_Some _ _ _ Hseg) as Hlt.
  cbn [Nat.add] in Hstop.
  repeat split; try assumption.
  - intros Hnone. apply Hstop in Hnone. apply lookup_ge_None in Hnone. lia.
  - intros Hlast. apply Hstop. apply lookup_ge_None. lia.
Qed.

End ItineraryFacts.

Lemma processItinerary_shape_witness :
  exists itineraryData,
    @processItinerary sampleHost
      (sampleResponse []) (sampleOffer "1" [])
      (sampleItinerary "PT3H5M" [sampleSegment "1" "AF"; sampleSegment "3" "BA"])
    = Ok itineraryData /\
    length (segments itineraryData) = 2%nat /\
    id_stops itineraryData = "1 stop".
Proof.
  destruct (@processItinerary sampleHost
              (sampleResponse []) (sampleOffer "1" [])
              (sampleItinerary "PT3H5M" [sampleSegment "1" "AF"; sampleSegment "3" "BA"]))
    as [itineraryData|e] eqn:Hrun; [|vm_compute in Hrun; discriminate Hrun].
  exists itineraryData. split; [reflexivity|].
  destruct (@processItinerary_shape sampleHost _ _ _ _ Hrun) as (Hlen & _ & Hstops & _).
  split; [exact Hlen|exact Hstops].
Defined.

(** ** The inner [offers.forEach] of [getFlightOffers] *)

Lemma pushInbound_loop_acc it2 inbound offers : forall acc flag,
  Forall (fun o => is_Some (outbound o) /\
                   (matchesOutbound it2 o = true -> is_Some (inbounds o))) offers ->
  forEachJs (pushInbound (Some it2) inbound) offers (acc, flag)
  = Ok (acc ++ map (withInbound it2 inbound) offers,
        flag || existsb (matchesOutbound it2) offers).
Proof.
  induction offers as [|o rest IH]; intros acc flag Hwf; cbn [forEachJs map existsb].
  - now rewrite app_nil_r, orb_false_r.
  - apply Forall_cons in Hwf as [[[it1 Hout] Hin] Hrest].
    unfold pushInbound at 1. unfold matchesOutbound, withInbound in *.
    rewrite Hout in *. cbn [defined bindJs fst snd].
    destruct (sameOutbound it1 it2) eqn:Hsame.
    + destruct (Hin eq_refl) as [ins Hins]. rewrite Hins. cbn [defined bindJs default].
      rewrite IH by exact Hrest. rewrite <- app_assoc. cbn [app].
      now rewrite orb_true_r.
    + cbn [bindJs]. rewrite IH by exact Hrest. rewrite <- app_assoc. cbn [app orb].
      reflexivity.
Qed.

Lemma withInbound_frame it2 inbound o :
  priceFrom (withInbound it2 inbound o) = priceFrom o /\
  validatingAirline (withInbound it2 inbound o) = validatingAirline o /\
  outbound (withInbound it2 inbound o) = outbound o /\
  added (withInbound it2 inbound o) = added o.
Proof.
  unfold withInbound. destruct (outbound o) as [it1|] eqn:Hout; [|now rewrite Hout].
  destruct (sameOutbound it1 it2); cbn; now rewrite ?Hout.
Qed.

(** X7.  The loop that merges an inbound into the collected offers: when
    every collected offer has an outbound, and an inbound list if it
    matches, the loop never throws; it keeps the number and the order of
    the offers and the price, validating airline and outbound of each;
    it appends the inbound at the end of the inbound list of every
    matching offer (of all of them, not only the first) and leaves the
    others untouched; and it reports a match exactly when one exists. *)
Theorem pushInbound_loop it2 inbound offers :
  Forall (fun o => is_Some (outbound o) /\
                   (matchesOutbound it2 o = true -> is_Some (inbounds o))) offers ->
  forEachJs (pushInbound (Some it2) inbound) offers ([], false)
  = Ok (map (withInbound it2 inbound) offers, existsb (matchesOutbound it2) offers) /\
  (forall i o, offers !! i = Some o ->
     exists o', map (withInbound it2 inbound) offers !! i = Some o' /\
       priceFrom o' = priceFrom o /\
       validatingAirline o' = validatingAirline o /\
       outbound o' = outbound o /\
       (if matchesOutbound it2 o
        then exists ins, inbounds o = Some ins /\ inbounds o' = Some (ins ++ [inbound])
        else o' = o)).
Proof.
  intros Hwf. split; [now rewrite pushInbound_loop_acc|].
  intros i o Hi. exists (withInbound it2 inbound o).
  split; [now rewrite list_lookup_fmap, Hi|].
  destruct (withInbound_frame it2 inbound o) as (Hp & Hv & Ho & _).
  repeat split; try assumption.
  rewrite Forall_lookup in Hwf. destruct (Hwf i o Hi) as [[it1 Hout] Hin].
  unfold matchesOutbound, withInbound in *. rewrite Hout in *.
  destruct (sameOutbound it1 it2); [|reflexivity].
  destruct (Hin eq_refl) as [ins Hins]. exists ins. now rewrite Hins.
Qed.

(** X8.  The same loop throws a [TypeError] when it reaches a collected
    offer that matches the outbound but has no inbound list (an offer
    collected from a one-way answer): [offer.inbounds.push] is called on
    [undefined]. *)
Theorem pushInbound_one_way_throws it2 inbound before o after :
  Forall (fun o => is_Some (outbound o) /\
                   (matchesOutbound it2 o = true -> is_Some (inbounds o))) before ->
  matchesOutbound it2 o = true -> inbounds o = None ->
  forEachJs (pushInbound (Some it2) inbound) (before ++ o :: after) ([], false)
  = Throw TypeError.
Proof.
  intros Hwf Hmatch Hnone.
  assert (Hsplit : forall (xs ys : list OfferData) st st',
            forEachJs (pushInbound (Some it2) inbound) xs st = Ok st' ->
            forEachJs (pushInbound (Some it2) inbound) (xs ++ ys) st
            = forEachJs (pushInbound (Some it2) inbound) ys st').
  { induction xs as [|x xs IH]; intros ys st st'; cbn [forEachJs app].
    - now intros [= ->].
    - destruct (pushInbound (Some it2) inbound st x); cbn [bindJs]; [apply IH|discriminate]. }
  rewrite (Hsplit _ _ _ _ (pushInbound_loop_acc it2 inbound before [] false Hwf)).
  cbn [forEachJs]. unfold pushInbound at 1. unfold matchesOutbound in Hmatch.
  destruct (outbound o) as [it1|]; [|discriminate Hmatch].
  cbn [defined bindJs]. now rewrite Hmatch, Hnone.
Qed.


Lemma pushInbound_loop_witness :
  forEachJs (pushInbound (Some (itineraryOf [segmentOf "AF" ""]))
                         (itineraryOf [segmentOf "BA" ""]))
    [collectedOffer "AF" (Some [itineraryOf [segmentOf "LH" ""]]);
     collectedOffer "BA" None;
     collectedOffer "AF" (Some [])] ([], false)
  = Ok ([collectedOffer "AF" (Some [itineraryOf [segmentOf "LH" ""];
                                    itineraryOf [segmentOf "BA" ""]]);
         collectedOffer "BA" None;
         collectedOffer "AF" (Some [itineraryOf [segmentOf "BA" ""]])], true).
Proof.
  refine (proj1 (pushInbound_loop (itineraryOf [segmentOf "AF" ""])
                   (itineraryOf [segmentOf "BA" ""])
                   [collectedOffer "AF" (Some [itineraryOf [segmentOf "LH" ""]]);
                    collectedOffer "BA" None;
                    collectedOffer "AF" (Some [])] _)).
  repeat (apply List.Forall_cons;
          [split; [eexists; reflexivity
                  |intros Hmatch; vm_compute in Hmatch;
                   first [discriminate Hmatch|eexists; reflexivity]]|]).
  apply List.Forall_nil.
Defined.

Lemma pushInbound_one_way_throws_witness :
  forEachJs (pushInbound (Some (itineraryOf [segmentOf "AF" ""]))
                         (itineraryOf [segmentOf "BA" ""]))
    [collectedOffer "BA" None; collectedOffer "AF" None;
     collectedOffer "AF" (Some [])] ([], false)
  = Throw TypeError.
Proof.
  apply (pushInbound_one_way_throws (itineraryOf [segmentOf "AF" ""])
           (itineraryOf [segmentOf "BA" ""])
           [collectedOffer "BA" None] (collectedOffer "AF" None)
           [collectedOffer "AF" (Some [])]).
  - apply List.Forall_cons; [|apply List.Forall_nil].
    split; [eexists; reflexivity|].
    intros Hmatch. vm_compute in Hmatch. discriminate Hmatch.
  - reflexivity.
  - reflexivity.
Defined.

(** ** [pricesForDatepairs]: keys, counters and arrival order *)

Section ScanFacts.
Context `{Platform}.

Lemma fold_recordStep_proto settled : forall m : gmap string PriceResult,
  fold_left recordStep settled m !! "__proto__" = m !! "__proto__".
Proof.
  induction settled as [|q rest IH]; intros m; cbn [fold_left]; [reflexivity|].
  rewrite IH. unfold recordStep, setProperty.
  destruct (decide (q.1 = "__proto__")) as [_|Hne]; [reflexivity|].
  now apply lookup_insert_ne.
Qed.

Lemma entryOf_keys (settled : list Query) : (entryOf <$> settled).*1 = settled.*1.
Proof. rewrite <- list_fmap_compose. now apply list_fmap_ext. Qed.

Lemma isPopulated_recordOf reply : isPopulated (recordOf reply) = succeeds reply.
Proof.
  destruct reply as [response|e]; cbn [recordOf succeeds]; [|reflexivity].
  destruct (priceOfResponse response) as [r|e] eqn:Hr; [|reflexivity].
  unfold priceOfResponse in Hr.
  destruct (data response !! 0%nat) as [first|]; [|discriminate Hr].
  cbn [defined bindJs] in Hr.
  destruct (newCurrencyFormatter (of_price_currency first)); [|discriminate Hr].
  cbn [bindJs] in Hr. now injection Hr as <-.
Qed.

Lemma fold_recordStep_distinct (settled : list Query) q :
  NoDup settled.*1 -> q ∈ settled -> q.1 <> "__proto__" ->
  fold_left recordStep settled ∅ !! q.1 = Some (recordOf q.2).
Proof.
  intros Hnodup Hq Hk.
  destruct (fold_recordStep_lookup settled ∅ q.1 Hk) as [Hin _].
  destruct Hin as (q' & Hq' & Hkey & ->); [now apply list_elem_of_fmap_2|].
  now rewrite (fst_unique settled q' q Hnodup Hq' Hq Hkey).
Qed.

Lemma fold_recordStep_permutation (s1 s2 : list Query) :
  NoDup s1.*1 -> s1 ≡ₚ s2 ->
  fold_left recordStep s1 ∅ = fold_left recordStep s2 ∅.
Proof.
  intros Hnodup Hperm. apply map_eq. intros k.
  destruct (decide (k = "__proto__")) as [->|Hk].
  { now rewrite !fold_recordStep_proto. }
  destruct (fold_recordStep_lookup s1 ∅ k Hk) as [Hin1 Hout1].
  destruct (fold_recordStep_lookup s2 ∅ k Hk) as [Hin2 Hout2].
  destruct (decide (k ∈ s1.*1)) as [Hmem|Hmem].
  - destruct (Hin1 Hmem) as (q1 & Hq1 & Hkey1 & ->).
    destruct Hin2 as (q2 & Hq2 & Hkey2 & ->); [now rewrite <- Hperm|].
    rewrite <- Hperm in Hq2.
    now rewrite (fst_unique s1 q1 q2 Hnodup Hq1 Hq2) by congruence.
  - rewrite (Hout1 Hmem). rewrite Hperm in Hmem. now rewrite (Hout2 Hmem).
Qed.

Lemma scanState_eq (a b : ScanState) :
  flights a = flights b -> responseCount a = responseCount b ->
  errorCount a = errorCount b -> resolved a = resolved b -> a = b.
Proof. destruct a, b. cbn. now intros -> -> -> ->. Qed.

Lemma failures_permutation (s1 s2 : list Query) :
  s1 ≡ₚ s2 -> failures s1 = failures s2.
Proof. intros Hperm. unfold failures. now rewrite Hperm. Qed.

Lemma pricesForDatepairs_counts queries settled :
  responseCount (pricesForDatepairs queries settled) = length settled /\
  errorCount (pricesForDatepairs queries settled) = failures settled.
Proof.
  unfold pricesForDatepairs.
  destruct (fold_settle (length queries) settled scanStart) as (_ & -> & -> & _).
  split; reflexivity.
Qed.

Lemma flights_distinct_pairs (queries settled : list Query) :
  NoDup settled.*1 ->
  Forall (fun q : Query => q.1 <> "__proto__") settled ->
  flights (pricesForDatepairs queries settled) = list_to_map (entryOf <$> settled).
Proof.
  intros Hnodup Hkeys. rewrite pricesForDatepairs_flights. apply map_eq. intros k.
  destruct (decide (k ∈ settled.*1)) as [Hmem|Hmem].
  - apply list_elem_of_fmap in Hmem as (q & -> & Hq).
    rewrite (fold_recordStep_distinct settled q Hnodup Hq).
    2:{ rewrite Forall_forall in Hkeys. now apply Hkeys. }
    symmetry. apply elem_of_list_to_map; [now rewrite entryOf_keys|].
    now apply (list_elem_of_fmap_2 entryOf).
  - transitivity (@None PriceResult).
    + destruct (decide (k = "__proto__")) as [->|Hk].
      { now rewrite fold_recordStep_proto. }
      now destruct (fold_recordStep_lookup settled ∅ k Hk) as [_ ->].
    + symmetry. apply not_elem_of_list_to_map. now rewrite entryOf_keys.
Qed.

(** X9.  Arrival order does not matter when the date pairs are
    distinct: whatever the order in which the same queries settle, the
    map, the two counters and the state of the promise end up the same;
    and with ordinary property names the map is exactly the one that
    sends each date pair to the record of its own query. *)
Theorem pricesForDatepairs_order_independent (queries s1 s2 : list Query) :
  NoDup s1.*1 -> s1 ≡ₚ s2 ->
  pricesForDatepairs queries s1 = pricesForDatepairs queries s2 /\
  (Forall (fun q : Query => q.1 <> "__proto__") s1 ->
     flights (pricesForDatepairs queries s1) = list_to_map (entryOf <$> s1)).
Proof.
  intros Hnodup Hperm. split.
  - destruct (pricesForDatepairs_counts queries s1) as [Hc1 He1].
    destruct (pricesForDatepairs_counts queries s2) as [Hc2 He2].
    apply scanState_eq.
    + rewrite !pricesForDatepairs_flights. now apply fold_recordStep_permutation.
    + rewrite Hc1, Hc2. now apply Permutation_length.
    + rewrite He1, He2. now apply failures_permutation.
    + pose proof (pricesForDatepairs_resolved queries s1) as Hr1.
      pose proof (pricesForDatepairs_resolved queries s2) as Hr2.
      rewrite <- (Permutation_length Hperm) in Hr2.
      destruct (resolved (pricesForDatepairs queries s1)),
        (resolved (pricesForDatepairs queries s2)); try reflexivity.
      * symmetry. apply Hr2, Hr1. reflexivity.
      * apply Hr1, Hr2. reflexivity.
  - intros Hkeys. now apply flights_distinct_pairs.
Qed.

(** X10.  The two counters: after any sequence of settlements
    [responseCount] is the number of settled queries and [errorCount]
    the number of those that failed, never more than [responseCount].
    With distinct, ordinary date pairs the map has one entry per settled
    query, [errorCount] of them empty objects and the others populated,
    which is what the log line reports. *)
Theorem pricesForDatepairs_counters (queries settled : list Query) :
  responseCount (pricesForDatepairs queries settled) = length settled /\
  errorCount (pricesForDatepairs queries settled) = failures settled /\
  errorCount (pricesForDatepairs queries settled)
    <= responseCount (pricesForDatepairs queries settled) /\
  (NoDup settled.*1 ->
   Forall (fun q : Query => q.1 <> "__proto__") settled ->
   size (flights (pricesForDatepairs queries settled))
     = responseCount (pricesForDatepairs queries settled) /\
   length (filter (fun kv => isPopulated kv.2 = false)
                  (map_to_list (flights (pricesForDatepairs queries settled))))
     = errorCount (pricesForDatepairs queries settled) /\
   length (filter (fun kv => isPopulated kv.2 = true)
                  (map_to_list (flights (pricesForDatepairs queries settled))))
     = responseCount (pricesForDatepairs queries settled)
       - errorCount (pricesForDatepairs queries settled)).
Proof.
  destruct (pricesForDatepairs_counts queries settled) as [-> ->].
  assert (Hle : failures settled <= length settled).
  { unfold failures. apply length_filter. }
  split; [reflexivity|]. split; [reflexivity|]. split; [exact Hle|].
  intros Hnodup Hkeys.
  pose proof (flights_distinct_pairs queries settled Hnodup Hkeys) as Hmap.
  assert (Hlist : map_to_list (flights (pricesForDatepairs queries settled))
                  ≡ₚ entryOf <$> settled).
  { rewrite Hmap. apply map_to_list_to_map. now rewrite entryOf_keys. }
  assert (Hempty : length (filter (fun kv : string * PriceResult =>
                                     isPopulated kv.2 = false) (entryOf <$> settled))
                   = failures settled).
  { unfold failures. clear. induction settled as [|q rest IH]; [reflexivity|].
    cbn [fmap list_fmap]. rewrite !filter_cons. cbn [entryOf snd].
    rewrite isPopulated_recordOf.
    destruct (succeeds q.2).
    - rewrite !decide_False by discriminate. exact IH.
    - rewrite !decide_True by reflexivity. cbn [length]. now rewrite IH. }
  assert (Hfull : length (filter (fun kv : string * PriceResult =>
                                    isPopulated kv.2 = true) (entryOf <$> settled))
                  + failures settled = length settled).
  { unfold failures. clear. induction settled as [|q rest IH]; [reflexivity|].
    cbn [fmap list_fmap]. rewrite !filter_cons. cbn [entryOf snd].
    rewrite isPopulated_recordOf.
    destruct (succeeds q.2).
    - rewrite decide_True by reflexivity. rewrite decide_False by discriminate.
      cbn [length Nat.add]. f_equal. exact IH.
    - rewrite decide_False by discriminate. rewrite decide_True by reflexivity.
      cbn [length]. rewrite Nat.add_succ_r. f_equal. exact IH. }
  split; [|split].
  - rewrite <- (length_fmap entryOf settled), <- Hlist. symmetry.
    apply length_map_to_list.
  - now rewrite Hlist.
  - rewrite Hlist. lia.
Qed.

(** X11.  The keys of the map: a string is a key exactly when it is the
    date pair of a settled query and is not "__proto__".  So the map
    never holds a key that was not asked for, and a pair spelled
    "__proto__" leaves no entry. *)
Theorem pricesForDatepairs_keys (queries settled : list Query) (k : string) :
  is_Some (flights (pricesForDatepairs queries settled) !! k) <->
  k ∈ settled.*1 /\ k <> "__proto__".
Proof.
  rewrite pricesForDatepairs_flights. split.
  - intros [r Hr]. destruct (decide (k = "__proto__")) as [->|Hk].
    { rewrite fold_recordStep_proto in Hr. discriminate Hr. }
    split; [|exact Hk]. destruct (decide (k ∈ settled.*1)) as [Hmem|Hmem]; [exact Hmem|].
    destruct (fold_recordStep_lookup settled ∅ k Hk) as [_ Hout].
    rewrite (Hout Hmem) in Hr. discriminate Hr.
  - intros [Hmem Hk].
    destruct (fold_recordStep_lookup settled ∅ k Hk) as [Hin _].
    destruct (Hin Hmem) as (q & _ & _ & ->). eauto.
Qed.

End ScanFacts.

Lemma pricesForDatepairs_order_independent_witness :
  @pricesForDatepairs sampleHost sampleQueries sampleQueries
  = @pricesForDatepairs sampleHost sampleQueries (reverse sampleQueries).
Proof.
  apply (@pricesForDatepairs_order_independent sampleHost).
  - apply (bool_decide_unpack _). vm_compute. exact I.
  - symmetry. apply reverse_Permutation.
Defined.

(** With a repeated pair the order does matter: the later answer wins. *)
Example pricesForDatepairs_repeated_pair_order :
  let first := ("2024-06-10>2024-06-17", pricedReply) in
  let second := ("2024-06-10>2024-06-17", refusedReply) in
  flights (@pricesForDatepairs sampleHost [first; second] [first; second])
  <> flights (@pricesForDatepairs sampleHost [first; second] [second; first]).
Proof.
  cbv zeta. intros Heq.
  apply (f_equal (fun m : gmap string (@PriceResult sampleHost) =>
                    @isPopulated sampleHost <$> m !! "2024-06-10>2024-06-17")) in Heq.
  vm_compute in Heq. discriminate Heq.
Qed.

(** ** [generateCalendarDatepairs] and [/calendar-view] *)

Section CalendarViewFacts.

Local Open Scope Z_scope.

Lemma dispatch_keys reply datepairs : (dispatch reply datepairs).*1 = datepairs.
Proof.
  unfold dispatch. revert reply.
  induction datepairs as [|dp rest IH]; intros reply; [reflexivity|].
  cbn [imap fmap list_fmap fst]. f_equal. apply (IH (fun i => reply (S i))).
Qed.

Lemma dispatch_length reply datepairs :
  length (dispatch reply datepairs) = length datepairs.
Proof. rewrite <- (dispatch_keys reply datepairs) at 2. now rewrite length_fmap. Qed.

(** A loop whose body either appends or throws. *)
Lemma forEachJs_guarded {A B : Type} (f : list B -> A -> JsResult (list B))
    (ok : A -> bool) (h : A -> list B) (e : JsError) (xs : list A) : forall st,
  (forall st x, x ∈ xs -> f st x = if ok x then Ok (st ++ h x) else Throw e) ->
  forEachJs f xs st = if forallb ok xs then Ok (st ++ flat_map h xs) else Throw e.
Proof.
  induction xs as [|x rest IH]; intros st Hf; cbn [forEachJs flat_map forallb].
  - now rewrite app_nil_r.
  - rewrite Hf by (now left). destruct (ok x); cbn [bindJs andb]; [|reflexivity].
    rewrite IH by (intros st' x' Hx'; apply Hf; now right).
    now rewrite <- app_assoc.
Qed.

Lemma flat_map_singleton {A B : Type} (g : A -> B) (xs : list A) :
  flat_map (fun x => [g x]) xs = map g xs.
Proof.
  induction xs as [|x rest IH]; [reflexivity|]. cbn [flat_map map app].
  now rewrite IH.
Qed.

Section Handler.
Context `{Platform}.

Lemma formatYMD_cases date :
  formatYMD date = if isValid date then Ok (formatted date) else Throw RangeError.
Proof. destruct date; reflexivity. Qed.

(** [generateCalendarDatepairs] in closed form: the list of the 49
    pairs when none of the shifted dates is invalid, and a [RangeError]
    otherwise. *)
Lemma generateCalendarDatepairs_closed departureDate returnDate :
  generateCalendarDatepairs departureDate returnDate
  = if forallb
         (fun i =>
            forallb (fun j => isValid (addDays (newDate departureDate) i)
                              && isValid (addDays (newDate returnDate) j))
                    dayOffsets)
         dayOffsets
    then Ok (flat_map
               (fun i =>
                  map (fun j => formatted (addDays (newDate departureDate) i)
                                +:+ ">" +:+
                                formatted (addDays (newDate returnDate) j))
                      dayOffsets)
               dayOffsets)
    else Throw RangeError.
Proof.
  unfold generateCalendarDatepairs.
  rewrite (forEachJs_guarded _
             (fun i =>
                forallb (fun j => isValid (addDays (newDate departureDate) i)
                                  && isValid (addDays (newDate returnDate) j))
                        dayOffsets)
             (fun i =>
                map (fun j => formatted (addDays (newDate departureDate) i)
                              +:+ ">" +:+
                              formatted (addDays (newDate returnDate) j))
                    dayOffsets)
             RangeError); [reflexivity|].
  intros st i _.
  rewrite (forEachJs_guarded _
             (fun j => isValid (addDays (newDate departureDate) i)
                       && isValid (addDays (newDate returnDate) j))
             (fun j => [formatted (addDays (newDate departureDate) i)
                        +:+ ">" +:+
                        formatted (addDays (newDate returnDate) j)])
             RangeError).
  - now rewrite flat_map_singleton.
  - intros st' j _. rewrite !formatYMD_cases.
    destruct (isValid (addDays (newDate departureDate) i)); [|reflexivity].
    destruct (isValid (addDays (newDate returnDate) j)); reflexivity.
Qed.

Lemma generateCalendarDatepairs_invalid departureDate returnDate :
  newDate departureDate = None \/ newDate returnDate = None ->
  generateCalendarDatepairs departureDate returnDate = Throw RangeError.
Proof.
  intros Hbad. rewrite generateCalendarDatepairs_closed.
  change dayOffsets with [-3; -2; -1; 0; 1; 2; 3]. cbn [forallb].
  destruct Hbad as [-> | ->]; cbn [addDays isValid andb]; [reflexivity|].
  now rewrite andb_false_r.
Qed.

(** X12.  [generateCalendarDatepairs] on any two strings: when
    [new Date] reads one of them as the invalid date it throws a
    [RangeError]; it returns exactly when none of the fourteen shifted
    dates is invalid; what it returns is always a list of exactly 49
    pairs, never a shorter one; and a [RangeError] is the only exception
    it throws. *)
Theorem generateCalendarDatepairs_total (departureDate returnDate : string) :
  (newDate departureDate = None \/ newDate returnDate = None ->
   generateCalendarDatepairs departureDate returnDate = Throw RangeError) /\
  ((exists datepairs,
      generateCalendarDatepairs departureDate returnDate = Ok datepairs) <->
   Forall (fun i => is_Some (addDays (newDate departureDate) i) /\
                    is_Some (addDays (newDate returnDate) i)) dayOffsets) /\
  (forall datepairs,
     generateCalendarDatepairs departureDate returnDate = Ok datepairs ->
     length datepairs = 49%nat) /\
  (forall e, generateCalendarDatepairs departureDate returnDate = Throw e ->
             e = RangeError).
Proof.
  split; [apply generateCalendarDatepairs_invalid|].
  rewrite generateCalendarDatepairs_closed.
  assert (Hvalid : forall date, isValid date = true <-> is_Some date).
  { intros [t|]; cbn [isValid]; split; eauto; try discriminate.
    intros [? ?]; discriminate. }
  assert (Hall : forallb
                   (fun i =>
                      forallb (fun j => isValid (addDays (newDate departureDate) i)
                                        && isValid (addDays (newDate returnDate) j))
                              dayOffsets)
                   dayOffsets = true <->
                 Forall (fun i => is_Some (addDays (newDate departureDate) i) /\
                                  is_Some (addDays (newDate returnDate) i)) dayOffsets).
  { rewrite forallb_forall, Forall_forall. split.
    - intros Hok i Hi. apply list_elem_of_In in Hi.
      pose proof (Hok i Hi) as Hrow. rewrite forallb_forall in Hrow.
      apply (Hrow i), andb_prop in Hi as [Hd Hr]. now rewrite <- !Hvalid.
    - intros Hok i Hi. apply forallb_forall. intros j Hj.
      apply list_elem_of_In in Hi, Hj.
      destruct (Hok i Hi) as [Hd _], (Hok j Hj) as [_ Hr].
      apply Hvalid in Hd, Hr. now rewrite Hd, Hr. }
  destruct (forallb _ dayOffsets).
  - split; [|split].
    + split; [intros _; now apply Hall|eauto].
    + intros datepairs [= <-]. reflexivity.
    + discriminate.
  - split; [|split].
    + split; [intros [? ?]; discriminate|].
      intros Hok. apply Hall in Hok. discriminate Hok.
    + discriminate.
    + now intros e [= <-].
Qed.

(** X13.  On every host that keeps its days, whatever its offset from
    UTC, for every pivot departure and return date, the pivot pair
    itself is among the generated pairs, and the generated pairs are
    pairwise distinct. *)
Theorem generateCalendarDatepairs_pivot_distinct (departure return_ : CivilDate) :
  boundedZone ->
  keepsLocalDays (midnightUTC departure) -> keepsLocalDays (midnightUTC return_) ->
  isPivot departure = true -> isPivot return_ = true ->
  exists datepairs,
    generateCalendarDatepairs (isoDate departure) (isoDate return_) = Ok datepairs /\
    isoDate departure +:+ ">" +:+ isoDate return_ ∈ datepairs /\
    NoDup datepairs.
Proof.
  intros Hzone Hkd Hkr Hd Hr.
  eexists. split; [now apply generateCalendarDatepairs_offsets|].
  split; [apply generated_pairs_pivot|now apply generated_pairs_distinct].
Qed.

(** X14.  What is generated is what is queried: on every host that
    keeps its days and for every pivot pair, each generated string is two
    dates joined by ">", and [pricesForDatepairs] reads exactly these two
    dates back from it as the departure and return date of the upstream
    query; both are date-only strings that [new Date] accepts. *)
Theorem generated_pairs_read_back (departure return_ : CivilDate)
    (datepairs : list string) :
  boundedZone ->
  keepsLocalDays (midnightUTC departure) -> keepsLocalDays (midnightUTC return_) ->
  isPivot departure = true -> isPivot return_ = true ->
  generateCalendarDatepairs (isoDate departure) (isoDate return_) = Ok datepairs ->
  Forall (fun datepair =>
            exists a b,
              datepair = a +:+ ">" +:+ b /\
              queryDates datepair = (Some a, Some b) /\
              is_Some (newDate a) /\ is_Some (newDate b))
         datepairs.
Proof.
  intros Hzone Hkd Hkr Hd Hr Hgen.
  rewrite generateCalendarDatepairs_offsets in Hgen by assumption.
  apply Ok_injective in Hgen. subst datepairs.
  apply Forall_forall. intros datepair Hin.
  apply list_elem_of_fmap in Hin as (ij & -> & [Hi Hj]%offsets_range).
  destruct (generated_pair_parts departure ij.1 (midnightUTC departure) Hd Hi)
    as [Ha Hna].
  destruct (generated_pair_parts return_ ij.2 (midnightUTC return_) Hr Hj)
    as [Hb Hnb].
  eexists _, _. split; [reflexivity|]. split; [now apply queryDates_pair|]. auto.
Qed.

Lemma flights_size_distinct (queries settled : list Query) :
  NoDup settled.*1 ->
  Forall (fun q : Query => q.1 <> "__proto__") settled ->
  size (flights (pricesForDatepairs queries settled)) = length settled.
Proof.
  intros Hnodup Hkeys. rewrite flights_distinct_pairs by assumption.
  rewrite map_size_list_to_map by (now rewrite entryOf_keys).
  apply length_fmap.
Qed.

(** X15.  [/calendar-view] on every host that keeps its days, for every
    pivot pair: no answer is sent while fewer than 49 queries have
    settled, and once all have settled, whatever their outcomes and
    order, the answer is a 200 whose map has exactly 49 entries.  When
    [new Date] reads a date as invalid the handler throws a [RangeError]
    before any query is dispatched. *)
Theorem handleCalendarView_entries (departure return_ : CivilDate)
    (reply : nat -> string -> Promise Response) :
  boundedZone ->
  keepsLocalDays (midnightUTC departure) -> keepsLocalDays (midnightUTC return_) ->
  isPivot departure = true -> isPivot return_ = true ->
  (forall settled,
     (length settled < 49)%nat ->
     handleCalendarView (isoDate departure) (isoDate return_) reply settled = Ok None) /\
  (forall datepairs settled,
     generateCalendarDatepairs (isoDate departure) (isoDate return_) = Ok datepairs ->
     settled ≡ₚ dispatch reply datepairs ->
     exists response,
       handleCalendarView (isoDate departure) (isoDate return_) reply settled
       = Ok (Some response) /\
       status response = 200 /\ size (body response) = 49%nat) /\
  (forall departureDate returnDate settled,
     newDate departureDate = None \/ newDate returnDate = None ->
     handleCalendarView departureDate returnDate reply settled = Throw RangeError).
Proof.
  intros Hzone Hkd Hkr Hd Hr.
  pose proof (generateCalendarDatepairs_offsets departure return_ Hzone Hkd Hkr Hd Hr)
    as Hgen.
  pose proof (generated_pairs_distinct departure return_
                (midnightUTC departure) (midnightUTC return_) Hd Hr) as Hnodup.
  set (datepairs0 := _ <$> list_prod _ _) in Hgen, Hnodup.
  assert (Hlen : length datepairs0 = 49%nat) by reflexivity.
  split; [|split].
  - intros settled Hshort. unfold handleCalendarView. rewrite Hgen. cbn [bindJs].
    unfold handleFlightsForDatepairs, scanPromise.
    destruct (resolved (pricesForDatepairs (dispatch reply datepairs0) settled))
      eqn:Hres; [|reflexivity].
    apply pricesForDatepairs_resolved in Hres.
    rewrite dispatch_length in Hres. lia.
  - intros datepairs settled Hgen' Hperm. rewrite Hgen in Hgen'.
    apply Ok_injective in Hgen'. subst datepairs.
    unfold handleCalendarView. rewrite Hgen. cbn [bindJs].
    unfold handleFlightsForDatepairs, scanPromise.
    replace (resolved (pricesForDatepairs (dispatch reply datepairs0) settled))
      with true.
    2:{ symmetry. apply pricesForDatepairs_resolved.
        pose proof (Permutation_length Hperm) as Hcount.
        rewrite dispatch_length in Hcount |- *. unfold Query. lia. }
    eexists. split; [reflexivity|]. split; [reflexivity|]. cbn [send body].
    rewrite flights_size_distinct.
    + pose proof (Permutation_length Hperm) as Hcount.
      rewrite dispatch_length in Hcount. unfold Query. lia.
    + now rewrite Hperm, dispatch_keys.
    + rewrite Hperm. apply Forall_forall. intros q Hq.
      apply (list_elem_of_fmap_2 fst) in Hq. rewrite dispatch_keys in Hq.
      apply list_elem_of_fmap in Hq as (ij & Hkey & [Hi Hj]%offsets_range).
      destruct (generated_pair_parts departure ij.1 (midnightUTC departure) Hd Hi)
        as [Ha _].
      destruct (generated_pair_parts return_ ij.2 (midnightUTC return_) Hr Hj)
        as [Hb _].
      intros Hproto. rewrite Hproto in Hkey.
      apply (f_equal queryDates) in Hkey.
      rewrite queryDates_pair in Hkey by assumption. discriminate Hkey.
  - intros departureDate returnDate settled Hbad. unfold handleCalendarView.
    now rewrite (generateCalendarDatepairs_invalid _ _ Hbad).
Qed.

End Handler.

End CalendarViewFacts.

Lemma generateCalendarDatepairs_pivot_distinct_witness :
  exists datepairs,
    @generateCalendarDatepairs westHost "2024-06-10" "2024-06-17" = Ok datepairs /\
    "2024-06-10>2024-06-17" ∈ datepairs /\
    NoDup datepairs.
Proof.
  apply (@generateCalendarDatepairs_pivot_distinct westHost (june 10) (june 17)).
  - apply hostWith_boundedZone. lia.
  - apply hostWith_keepsLocalDays.
  - apply hostWith_keepsLocalDays.
  - reflexivity.
  - reflexivity.
Defined.

Lemma generated_pairs_read_back_witness :
  exists datepairs,
    @generateCalendarDatepairs westHost "2024-06-10" "2024-06-17" = Ok datepairs /\
    Forall (fun datepair =>
              exists a b,
                datepair = a +:+ ">" +:+ b /\
                queryDates datepair = (Some a, Some b) /\
                is_Some (@newDate westHost a) /\ is_Some (@newDate westHost b))
           datepairs.
Proof.
  destruct (@generateCalendarDatepairs westHost "2024-06-10" "2024-06-17")
    as [datepairs|e] eqn:Hgen; [|vm_compute in Hgen; discriminate Hgen].
  exists datepairs. split; [reflexivity|].
  apply (@generated_pairs_read_back westHost (june 10) (june 17) datepairs).
  - apply hostWith_boundedZone. lia.
  - apply hostWith_keepsLocalDays.
  - apply hostWith_keepsLocalDays.
  - reflexivity.
  - reflexivity.
  - exact Hgen.
Defined.

Lemma handleCalendarView_entries_witness :
  (forall settled,
     (length settled < 49)%nat ->
     @handleCalendarView westHost "2024-06-10" "2024-06-17"
       (fun _ _ => refusedReply) settled = Ok None) /\
  (forall datepairs settled,
     @generateCalendarDatepairs westHost "2024-06-10" "2024-06-17" = Ok datepairs ->
     settled ≡ₚ dispatch (fun _ _ => refusedReply) datepairs ->
     exists response,
       @handleCalendarView westHost "2024-06-10" "2024-06-17"
         (fun _ _ => refusedReply) settled
       = Ok (Some response) /\
       status response = 200%Z /\ size (body response) = 49%nat) /\
  (forall departureDate returnDate settled,
     @newDate westHost departureDate = None \/ @newDate westHost returnDate = None ->
     @handleCalendarView westHost departureDate returnDate
       (fun _ _ => refusedReply) settled = Throw RangeError).
Proof.
  apply (@handleCalendarView_entries westHost (june 10) (june 17)
           (fun _ _ => refusedReply)).
  - apply hostWith_boundedZone. lia.
  - apply hostWith_keepsLocalDays.
  - apply hostWith_keepsLocalDays.
  - reflexivity.
  - reflexivity.
Defined.

(** ** The failures of [getFlightOffers] before the offer loop *)

Section EarlyFailures.
Context `{Platform}.

(** X16.  What [/get-flight-offers] answers when the upstream call is
    fulfilled but the answer cannot be reshaped: a body that
    [JSON.parse] refuses gives a 200 carrying that error; an answer with
    no offer gives a 200 carrying a [TypeError] (from
    [response.data[0].price]), not an empty list; an answer whose first
    offer has a malformed currency code gives a 200 carrying a
    [RangeError]. *)
Theorem handleGetFlightOffers_early_failures (body0 : string) :
  (forall e, JSON_parse body0 = Throw e ->
     handleGetFlightOffers (Fulfilled body0)
     = {| status := 200; body := ErrorValue e |}) /\
  (forall response, JSON_parse body0 = Ok response -> data response = [] ->
     handleGetFlightOffers (Fulfilled body0)
     = {| status := 200; body := ErrorValue TypeError |}) /\
  (forall response first rest,
     JSON_parse body0 = Ok response -> data response = first :: rest ->
     isWellFormedCurrencyCode (of_price_currency first) = false ->
     handleGetFlightOffers (Fulfilled body0)
     = {| status := 200; body := ErrorValue RangeError |}).
Proof.
  unfold handleGetFlightOffers, getFlightOffers, getFlightOffersIn, schedule,
    then_, catch_, reshapeOffers.
  split; [|split].
  - intros e ->. reflexivity.
  - intros response Hparse Hdata. rewrite Hparse. cbn [bindJs].
    rewrite Hdata. reflexivity.
  - intros response first rest Hparse Hdata Hcur. rewrite Hparse. cbn [bindJs].
    rewrite Hdata. cbn [lookup list_lookup defined bindJs].
    unfold newCurrencyFormatter. rewrite Hcur. reflexivity.
Qed.

End EarlyFailures.
